(** * ConfigSpace: the categorical hyperparameter and its neighbourhood

    A shallow embedding of [ConfigSpace/hyperparameters/categorical.py]:
    the neighbourhood generator [NeighborhoodCat] with its two caches, and
    the categorical domain [CategoricalHyperparameter] (construction,
    [to_uniform], [__eq__]).

    Conventions of the embedding.
    - numpy arrays live in a heap of buffers; an [ndarray] is a view on a
      buffer, so that aliasing between a cache and what a call shuffles is
      visible.  Slicing makes a view, [copy] and [concatenate] allocate.
    - the [f64] entries of the index arrays are the integral values
      [0.0, 1.0, ...]; they are represented by [nat].
    - weights and probabilities are IEEE 754 binary64 numbers, the
      [spec_float] of the Standard Library at precision 53: zeros,
      infinities, NaN and finite numbers, with the division, the addition
      and the comparisons of the standard (round to nearest, ties to even).
    - [np.sum] is a parameter: numpy does not fix the order in which it
      adds.  What is proved of the constructor holds for every summation;
      the examples are evaluated with the loop that adds from left to
      right.
    - Python exceptions are values of [exn]; a fallible function returns
      [result A = exn + A]. *)

From Stdlib Require Import ZArith Floats.SpecFloat.
From stdpp Require Import base option list strings numbers pretty.

Open Scope nat_scope.

(** ** Exceptions *)

Inductive exn : Type :=
  | TypeError (msg : string)
  | ValueError (msg : string)
  | ZeroDivisionError
  | IndexError.

Definition result (A : Type) : Type := exn + A.

Definition raise {A : Type} (e : exn) : result A := inl e.
Definition ret {A : Type} (a : A) : result A := inr a.

Definition is_ValueError {A : Type} (r : result A) : bool :=
  match r with inl (ValueError _) => true | _ => false end.

Definition is_TypeError {A : Type} (r : result A) : bool :=
  match r with inl (TypeError _) => true | _ => false end.

(** ** numpy: buffers, views, the legacy random generator *)

Module Numpy.

(** A buffer holds the entries of one allocation; the heap is the list of
    all buffers allocated so far, an address is a position in it. *)
Abbreviation buffer := (list nat).
Abbreviation heap := (list (list nat)).

(** A one-dimensional view: [len] entries of buffer [base] from [start]. *)
Record ndarray : Type := mk_ndarray { base : nat; start : nat; len : nat }.

Definition contents (h : heap) (a : ndarray) : list nat :=
  take (len a) (drop (start a) (default [] (h !! base a))).

Definition alloc (data : list nat) (h : heap) : ndarray * heap :=
  (mk_ndarray (length h) 0 (length data), h ++ [data]).

(** [np.arange(0, n, dtype=f64)] *)
Definition arange (n : nat) (h : heap) : ndarray * heap :=
  alloc (seq 0 n) h.

(** [a[:i]] and [a[i:]] for a non-negative [i]: views, clamped to the
    array as Python slices are. *)
Definition slice_to (a : ndarray) (i : nat) : ndarray :=
  mk_ndarray (base a) (start a) (i `min` len a).

Definition slice_from (a : ndarray) (i : nat) : ndarray :=
  mk_ndarray (base a) (start a + (i `min` len a)) (len a - i).

(** [np.concatenate((a, b))] and [a.copy()] allocate. *)
Definition concatenate (a b : ndarray) (h : heap) : ndarray * heap :=
  alloc (contents h a ++ contents h b) h.

Definition copy (a : ndarray) (h : heap) : ndarray * heap :=
  alloc (contents h a) h.

Definition getitem (h : heap) (a : ndarray) (i : nat) : option nat :=
  h !! base a ≫= λ b, b !! (start a + i).

Definition setitem (a : ndarray) (i x : nat) (h : heap) : heap :=
  alter (λ b, <[start a + i := x]> b) (base a) h.

(** [np.random.RandomState]: the generator is the sequence of raw words
    it is going to produce and a cursor in it.  [random_interval max]
    draws a number of [[0, max]]; numpy reduces the raw words by masking
    and rejection, here the remainder is taken.  Every sequence of draws
    that stays in range is the sequence of some generator (the one whose raw
    words are these draws), so what holds for all [RandomState] holds for
    all outcomes of the draws. *)
Record RandomState : Type := mk_RandomState { raw : nat → nat; pos : nat }.

Definition random_interval (max : nat) (st : RandomState) : nat * RandomState :=
  (raw st (pos st) `mod` S max, mk_RandomState (raw st) (S (pos st))).

(** One exchange of [_shuffle_raw]:
    [buf = data[j]; data[j] = data[i]; data[i] = buf]. *)
Definition exchange (a : ndarray) (i j : nat) (h : heap) : heap :=
  match getitem h a j, getitem h a i with
  | Some xj, Some xi => setitem a i xj (setitem a j xi h)
  | _, _ => h
  end.

(** [for i in reversed(range(1, n)): j = random_interval(i); exchange];
    the argument is the current [i], [0] ends the loop. *)
Fixpoint shuffle_raw (i : nat) (a : ndarray) (st : RandomState) (h : heap)
  : RandomState * heap :=
  match i with
  | 0 => (st, h)
  | S i' =>
      let '(j, st') := random_interval i st in
      shuffle_raw i' a st' (exchange a i j h)
  end.

(** [seed.shuffle(a)], in place. *)
Definition shuffle (a : ndarray) (st : RandomState) (h : heap)
  : RandomState * heap :=
  shuffle_raw (len a - 1) a st h.

(** The same loop on a plain list, used to reason about [shuffle]. *)
Definition exchange_list (i j : nat) (l : list nat) : list nat :=
  match l !! j, l !! i with
  | Some xj, Some xi => <[i := xj]> (<[j := xi]> l)
  | _, _ => l
  end.

Fixpoint shuffle_list (i : nat) (st : RandomState) (l : list nat)
  : RandomState * list nat :=
  match i with
  | 0 => (st, l)
  | S i' =>
      let '(j, st') := random_interval i st in
      shuffle_list i' st' (exchange_list i j l)
  end.

(** The list a shuffle leaves in an array that holds [d]. *)
Definition shuffled (st : RandomState) (d : list nat) : list nat :=
  (shuffle_list (length d - 1) st d).2.

End Numpy.

(** ** The neighbourhood of a categorical hyperparameter *)

Module Neighborhood.
Import Numpy.

Definition CACHE_NEIGHBORS_CATEGORICAL_SIZE : nat := 5.
Definition CACHE_ARANGE_CATEGORICAL_SIZE : nat := 25.

Record NeighborhoodCat : Type := mk_NeighborhoodCat {
  size : nat;
  _cached_arange : option ndarray;
  _cached_neighbors : option (list ndarray)
}.

(** The body of the loop of [__post_init__] for one [i]. *)
Definition cache_pivot (size i : nat) (h : heap) : ndarray * heap :=
  let '(_range, h1) := arange size h in
  let bot := slice_to _range i in
  let top := slice_from _range (i + 1) in
  concatenate bot top h1.

Fixpoint cache_pivots (size : nat) (pivots : list nat) (acc : list ndarray)
    (h : heap) : list ndarray * heap :=
  match pivots with
  | [] => (acc, h)
  | i :: rest =>
      let '(choices, h') := cache_pivot size i h in
      cache_pivots size rest (acc ++ [choices]) h'
  end.

Definition __post_init__ (size : nat) (h : heap) : NeighborhoodCat * heap :=
  if size <=? CACHE_NEIGHBORS_CATEGORICAL_SIZE then
    let '(_cached_neighbors, h') := cache_pivots size (seq 0 size) [] h in
    (mk_NeighborhoodCat size None (Some _cached_neighbors), h')
  else if size <=? CACHE_ARANGE_CATEGORICAL_SIZE then
    let '(_cached_arange, h') := arange size h in
    (mk_NeighborhoodCat size (Some _cached_arange) None, h')
  else
    (mk_NeighborhoodCat size None None, h).

(** [__call__(vector, n, seed=seed)].  [vector] is the encoded pivot, a
    non-negative index; [entropy] is the generator that
    [np.random.RandomState()] makes when [seed] is [None].  The result is
    the returned array (or the exception), the generator after the call
    and the heap after the call. *)
Definition __call__ (self : NeighborhoodCat) (vector n : nat)
    (seed : option RandomState) (entropy : RandomState) (h : heap)
  : result ndarray * RandomState * heap :=
  let seed := default entropy seed in
  let pivot := vector in
  match _cached_neighbors self with
  | Some cached =>
      match cached !! pivot with
      | None => (raise IndexError, seed, h)
      | Some cached_pivot =>
          let '(choices, h1) := copy cached_pivot h in
          let '(seed', h2) := shuffle choices seed h1 in
          (ret choices, seed', h2)
      end
  | None =>
      let '(_range, h1) :=
        match _cached_arange self with
        | Some r => (r, h)
        | None => arange (size self) h
        end in
      let bot := slice_to _range pivot in
      let top := slice_from _range (pivot + 1) in
      let '(choices, h2) := concatenate bot top h1 in
      let '(seed', h3) := shuffle choices seed h2 in
      (ret (slice_to choices n), seed', h3)
  end.

(** What a call returns, read in the heap it leaves. *)
Definition returned (r : result ndarray * RandomState * heap) : option (list nat) :=
  match r with
  | (inr a, _, h) => Some (contents h a)
  | (inl _, _, _) => None
  end.

(** The ascending sequence [{0, ..., size-1} \ {pivot}]. *)
Definition others (size pivot : nat) : list nat :=
  seq 0 pivot ++ seq (S pivot) (size - S pivot).

(** One call of a client, and a sequence of them run on one generator
    object; an exception leaves the heap as it is and the client goes on. *)
Record request : Type := mk_request {
  req_vector : nat;
  req_n : nat;
  req_seed : option RandomState;
  req_entropy : RandomState
}.

Definition serve (self : NeighborhoodCat) (r : request) (h : heap) : heap :=
  (__call__ self (req_vector r) (req_n r) (req_seed r) (req_entropy r) h).2.

Definition serve_all (self : NeighborhoodCat) (rs : list request) (h : heap) : heap :=
  foldl (λ h r, serve self r h) h rs.

(** The caches hold what [__post_init__] put there: one array per pivot,
    each the ascending sequence without its pivot, and the ascending
    range. *)
Definition caches_intact (self : NeighborhoodCat) (h : heap) : Prop :=
  (∀ cached, _cached_neighbors self = Some cached →
     length cached = size self ∧
     ∀ i a, cached !! i = Some a → contents h a = others (size self) i) ∧
  (∀ r, _cached_arange self = Some r → contents h r = seq 0 (size self)).

(** The cached arrays are allocated in [h]. *)
Definition caches_allocated (self : NeighborhoodCat) (h : heap) : Prop :=
  (∀ cached i a, _cached_neighbors self = Some cached →
     cached !! i = Some a → base a < length h) ∧
  (∀ r, _cached_arange self = Some r → base r < length h).

(** A generator for the examples. *)
Definition example_seed : RandomState := mk_RandomState (λ k, 7 * k + 3) 0.

Definition example_requests : list request :=
  [mk_request 1 2 (Some example_seed) example_seed;
   mk_request 9 1 None example_seed;
   mk_request 0 4 None (mk_RandomState (λ k, k * k) 5)].

(** The tier of an instance follows from its size. *)
Definition tiered (self : NeighborhoodCat) : Prop :=
  (size self ≤ CACHE_NEIGHBORS_CATEGORICAL_SIZE ↔
     is_Some (_cached_neighbors self)) ∧
  (CACHE_NEIGHBORS_CATEGORICAL_SIZE < size self →
     _cached_neighbors self = None).

End Neighborhood.

(** ** IEEE 754 binary64 *)

Abbreviation f64 := spec_float.

Module F64.

Definition prec : Z := 53.
Definition emax : Z := 1024.

(** [x + y], [x / y], [x < y], [x <= y] and [x == y] on floats.  A
    comparison with NaN is false, [x != y] is the negation of [x == y]. *)
Definition add (x y : f64) : f64 := SFadd prec emax x y.
Definition div (x y : f64) : f64 := SFdiv prec emax x y.
Definition ltb (x y : f64) : bool := SFltb x y.
Definition leb (x y : f64) : bool := SFleb x y.
Definition eqb (x y : f64) : bool := SFeqb x y.

Definition is_nan (x : f64) : bool :=
  match x with S754_nan => true | _ => false end.

(** [float(z)] of an integer, rounded to nearest; exact below [2^53]. *)
Definition of_Z (z : Z) : f64 := binary_normalize prec emax z 0 false.
Definition of_nat (n : nat) : f64 := of_Z (Z.of_nat n).

Definition zero : f64 := S754_zero false.
Definition one : f64 := of_Z 1.
Definition infinity : f64 := S754_infinity false.

(** The float literal nearest to [a / b], as [0.3] is [ratio 3 10]. *)
Definition ratio (a b : Z) : f64 := div (of_Z a) (of_Z b).

(** The largest power of two, [2.0 ** 1023]. *)
Definition huge : f64 := of_Z (2 ^ 1023).

#[global] Arguments add : simpl never.
#[global] Arguments div : simpl never.
#[global] Arguments ltb : simpl never.
#[global] Arguments leb : simpl never.
#[global] Arguments eqb : simpl never.
#[global] Arguments of_Z : simpl never.

(** The order of the comparisons, for the proofs: the floats that are not
    NaN are ordered as their ranks are, lexicographically. *)
Definition rank (x : f64) : Z * Z * Z :=
  match x with
  | S754_nan => (0, 0, 0)
  | S754_zero _ => (0, 0, 0)
  | S754_infinity true => (-2, 0, 0)
  | S754_infinity false => (2, 0, 0)
  | S754_finite true m e => (-1, - e, Zneg m)
  | S754_finite false m e => (1, e, Zpos m)
  end%Z.

Definition lex (a b : Z * Z * Z) : comparison :=
  match (a.1.1 ?= b.1.1)%Z with
  | Eq => match (a.1.2 ?= b.1.2)%Z with
          | Eq => (a.2 ?= b.2)%Z
          | c => c
          end
  | c => c
  end.

Definition lex_lt (a b : Z * Z * Z) : Prop :=
  (a.1.1 < b.1.1
   ∨ (a.1.1 = b.1.1 ∧ (a.1.2 < b.1.2 ∨ (a.1.2 = b.1.2 ∧ a.2 < b.2))))%Z.

End F64.

(** ** The categorical hyperparameter *)

Module Categorical.
Import Numpy Neighborhood.

(** Python values that can be choices.  [bool] is a subclass of [int]
    ([True == 1] and they hash alike), so booleans are [VInt 1] and
    [VInt 0]; with that, Python's [==] on these values is Leibniz
    equality.  [VNone] is [None]. *)
Inductive value : Type :=
  | VNone
  | VInt (z : Z)
  | VStr (s : string).

#[global] Instance value_eq_dec : EqDecision value.
Proof. solve_decision. Defined.

Definition is_None (v : value) : bool :=
  match v with VNone => true | _ => false end.

(** The [choices] argument: an ordered sequence (list or tuple), or a
    [set], given by its elements in iteration order. *)
Inductive choices_arg : Type :=
  | ChoicesSeq (l : list value)
  | ChoicesSet (l : list value).

Definition iterate (c : choices_arg) : list value :=
  match c with ChoicesSeq l | ChoicesSet l => l end.

(** The [weights] argument: [None], a [Sequence] of floats, a [set], or
    any other object (a numpy array is not a [Sequence]).  A weight is any
    float, an infinity or NaN included. *)
Inductive weights_arg : Type :=
  | WeightsNone
  | WeightsSeq (w : list f64)
  | WeightsSet (w : list f64)
  | WeightsOther.

Definition is_WeightsNone (w : weights_arg) : bool :=
  match w with WeightsNone => true | _ => false end.

(** [np.asarray(weights, dtype=f64)]; it is only reached with a
    [Sequence]. *)
Definition np_asarray (w : weights_arg) : list f64 :=
  match w with
  | WeightsSeq w | WeightsSet w => w
  | WeightsNone | WeightsOther => []
  end.

Definition meta_t : Type := option (list (value * value)).

Inductive Distribution : Type :=
  | UniformIntegerDistribution (size : nat)
  | WeightedIntegerDiscreteDistribution (size : nat) (probabilities : list f64).

Record CategoricalHyperparameter : Type := mk_CategoricalHyperparameter {
  choices : list value;
  weights : option (list f64);
  name : string;
  default_value : value;
  meta : meta_t;
  size : nat;
  probabilities : list f64;
  vector_dist : Distribution;
  neighborhood : NeighborhoodCat
}.

(** *** Helpers standing for Python and numpy built-ins *)

#[global] Instance result_bind : MBind result :=
  λ A B f r, match r with inl e => inl e | inr a => f a end.

(** [if b: raise e] *)
Definition raise_if (b : bool) (e : exn) : result unit :=
  if b then raise e else ret tt.

(** [collections.Counter(l)], with its items in first-seen order. *)
Fixpoint Counter_add (x : value) (c : list (value * nat)) : list (value * nat) :=
  match c with
  | [] => [(x, 1)]
  | (y, k) :: c' =>
      if decide (x = y) then (y, S k) :: c' else (y, k) :: Counter_add x c'
  end.

Definition Counter (l : list value) : list (value * nat) :=
  foldl (λ c x, Counter_add x c) [] l.

(** [np.sum] of an array of floats.  numpy adds in blocks and pairwise,
    not from left to right, and its code is not among the sources: the
    function is a parameter. *)
Class Summation : Type := np_sum : list f64 → f64.

(** The loop that adds from left to right, from [0.0]: with it the
    examples are evaluated.  On two numbers every order of summation adds
    the one to the other. *)
Definition sequential_sum : Summation := foldl F64.add F64.zero.

Definition np_full (n : nat) (x : f64) : list f64 := replicate n x.

(** [np.argmax] on floats, the loop of numpy: an entry replaces the
    maximum so far when it is not below or equal to it, which a NaN never
    is, and the loop ends at the first NaN.  So the result is the index of
    the first NaN when there is one, and of the first largest entry
    otherwise. *)
Fixpoint argmax_from (max_ind : nat) (mp : f64) (i : nat) (l : list f64) : nat :=
  match l with
  | [] => max_ind
  | x :: l' =>
      if negb (F64.leb x mp) then
        if F64.is_nan x then i else argmax_from i x (S i) l'
      else argmax_from max_ind mp (S i) l'
  end.

Definition np_argmax (l : list f64) : result nat :=
  match l with
  | [] => raise (ValueError "attempt to get argmax of an empty sequence")
  | x :: l' => ret (if F64.is_nan x then 0 else argmax_from 0 x 1 l')
  end.

(** [1 / size] on Python ints: the float nearest to the quotient (both
    operands are exact floats, [size] being the length of a tuple). *)
Definition int_div_1 (size : nat) : result f64 :=
  if decide (size = 0) then raise ZeroDivisionError
  else ret (F64.div F64.one (F64.of_nat size)).

(** [t[i]] and [t.index(x)] on a tuple. *)
Definition tuple_getitem {A : Type} (t : list A) (i : nat) : result A :=
  match t !! i with Some x => ret x | None => raise IndexError end.

Definition tuple_index (t : list value) (x : value) : result nat :=
  match list_find (λ y, y = x) t with
  | Some (i, _) => ret i
  | None => raise (ValueError "tuple.index(x): x not in tuple")
  end.

Definition contains (t : list value) (x : value) : bool :=
  bool_decide (x ∈ t).

(** *** [__init__] *)

(** The checks on [weights], giving [tupled_weights]. *)
Definition check_weights (weights : weights_arg) (choices : list value)
  : result (option (list f64)) :=
  match weights with
  | WeightsSet _ =>
      raise (TypeError "Using a set of weights is prohibited")
  | WeightsSeq w =>
      _ ← raise_if (negb (length w =? length choices))
            (ValueError "The list of weights and the list of choices are required to be of same length.");
      _ ← raise_if (existsb (λ weight, F64.ltb weight F64.zero) w)
            (ValueError "Negative weights are not allowed.");
      _ ← raise_if (forallb (λ weight, F64.eqb weight F64.zero) w)
            (ValueError "All weights are zero, at least one weight has to be strictly positive.");
      ret (Some w)
  | WeightsOther =>
      raise (TypeError "The weights have to be a list, tuple or None.")
  | WeightsNone => ret None
  end.

(** Everything [__init__] computes before it builds the neighbourhood. *)
Record resolved : Type := mk_resolved {
  r_choices : list value;
  r_weights : option (list f64);
  r_default : value;
  r_size : nat;
  r_probabilities : list f64;
  r_vector_dist : Distribution
}.

Section Constructor.

Context {summation : Summation}.

Definition resolve (name : string) (choices : choices_arg)
    (default_value : value) (weights : weights_arg) : result resolved :=
  _ ← raise_if (existsb is_None (iterate choices))
        (TypeError "Choice 'None' is not supported");
  choices ← match choices with
             | ChoicesSet _ =>
                 raise (TypeError "Using a set of choices is prohibited")
             | ChoicesSeq l => ret l
             end;
  let counter := Counter choices in
  _ ← match find (λ '(choice, count), 1 <? count) counter with
       | Some _ =>
           raise (ValueError "Choices for categorical hyperparameters contain a choice more than once")
       | None => ret tt
       end;
  tupled_weights ← check_weights weights choices;
  _ ← raise_if (negb (is_None default_value) && negb (contains choices default_value))
        (ValueError "The default value has to be one of the choices.");
  let size := length choices in
  probabilities ←
    (if is_WeightsNone weights then
       fill_value ← int_div_1 size; ret (np_full size fill_value)
     else
       let _weights := np_asarray weights in
       ret ((λ w, F64.div w (np_sum _weights)) <$> _weights));
  default_value ←
    (if is_None default_value && is_WeightsNone weights
     then tuple_getitem choices 0
     else if is_None default_value then
       highest_prob_index ← np_argmax probabilities;
       tuple_getitem choices highest_prob_index
     else if contains choices default_value then ret default_value
     else raise (ValueError "Illegal default value"));
  let vector_dist :=
    if negb (is_WeightsNone weights)
    then WeightedIntegerDiscreteDistribution size probabilities
    else UniformIntegerDistribution size in
  ret (mk_resolved choices tupled_weights default_value size probabilities vector_dist).

(** [CategoricalHyperparameter(name, choices, default_value, meta, weights)].
    The base class initialiser, which is not part of this file, stores
    [name], [default_value], [meta], [size] and the components it is
    given.  An instance of [NeighborhoodCat] is built on the way, hence
    the heap. *)
Definition __init__ (name : string) (choices : choices_arg)
    (default_value : value) (meta : meta_t) (weights : weights_arg)
    (h : heap) : result CategoricalHyperparameter * heap :=
  match resolve name choices default_value weights with
  | inl e => (inl e, h)
  | inr r =>
      let '(nb, h') := __post_init__ (r_size r) h in
      (ret (mk_CategoricalHyperparameter (r_choices r) (r_weights r) name
              (r_default r) meta (r_size r) (r_probabilities r)
              (r_vector_dist r) nb), h')
  end.

(** *** [to_uniform] *)
Definition to_uniform (self : CategoricalHyperparameter) (h : heap)
  : result CategoricalHyperparameter * heap :=
  __init__ (name self) (ChoicesSeq (choices self)) (default_value self)
    (meta self) WeightsNone h.

(** [constructed d]: [d] is what some call of the constructor returned. *)
Definition constructed (d : CategoricalHyperparameter) : Prop :=
  ∃ name choices default_value meta weights h,
    (__init__ name choices default_value meta weights h).1 = inr d.

(** [probabilities], by the way [weights] is given. *)
Definition probabilities_of (w : weights_arg) (size : nat) : list f64 :=
  match w with
  | WeightsNone => np_full size (F64.div F64.one (F64.of_nat size))
  | _ => (λ x, F64.div x (np_sum (np_asarray w))) <$> np_asarray w
  end.

End Constructor.

(** *** [__eq__] *)

(** What [other] can be: an instance of the class, or something else. *)
Inductive py_object : Type :=
  | Instance_of_class (o : CategoricalHyperparameter)
  | Other_object.

(** The loop over [zip(self.choices, self.probabilities)]. *)
Fixpoint eq_loop (pairs : list (value * f64)) (other : CategoricalHyperparameter)
  : result bool :=
  match pairs with
  | [] => ret true
  | (this_choice, this_prob) :: rest =>
      if negb (contains (choices other) this_choice) then ret false
      else
        index_of_choice_in_other ← tuple_index (choices other) this_choice;
        other_prob ← tuple_getitem (probabilities other) index_of_choice_in_other;
        if negb (F64.eqb this_prob other_prob) then ret false
        else eq_loop rest other
  end.

Definition __eq__ (self : CategoricalHyperparameter) (other : py_object)
  : result bool :=
  match other with
  | Other_object => ret false
  | Instance_of_class other =>
      if negb (bool_decide (name self = name other))
         || negb (bool_decide (default_value self = default_value other))
         || negb (length (choices self) =? length (choices other))
      then ret false
      else eq_loop (zip (choices self) (probabilities self)) other
  end.

(** *** The conditions of the constructor, as predicates *)

(** [counter[y]] *)
Fixpoint tally (c : list (value * nat)) (y : value) : nat :=
  match c with
  | [] => 0
  | (z, k) :: c' => if decide (y = z) then k else tally c' y
  end.

Definition occurrences (y : value) (l : list value) : nat :=
  length (filter (λ z, z = y) l).

(** A sequence of weights that the constructor refuses with a
    [ValueError]: wrong length, a negative weight ([weight < 0] is true),
    or only zeros ([weight == 0] is true of each). *)
Definition weights_rejected (w : weights_arg) (l : list value) : Prop :=
  ∃ ws, w = WeightsSeq ws ∧
    (length ws ≠ length l
     ∨ (∃ x, x ∈ ws ∧ F64.ltb x F64.zero = true)
     ∨ (∀ x, x ∈ ws → F64.eqb x F64.zero = true)).

(** Weights that pass: none, or a sequence of the right length, without
    a negative weight and not all zero. *)
Definition weights_accepted (w : weights_arg) (l : list value) : Prop :=
  w = WeightsNone
  ∨ ∃ ws, w = WeightsSeq ws ∧ length ws = length l
      ∧ (∀ x, x ∈ ws → F64.ltb x F64.zero = false)
      ∧ (∃ x, x ∈ ws ∧ F64.eqb x F64.zero = false).

(** Weights of a type that is refused: a set, or not a sequence. *)
Definition weights_ill_typed (w : weights_arg) : Prop :=
  (∃ ws, w = WeightsSet ws) ∨ w = WeightsOther.

(** A default that is given and is not a choice. *)
Definition default_rejected (default_value : value) (l : list value) : Prop :=
  default_value ≠ VNone ∧ default_value ∉ l.

(** [i] is the first index of the largest entry of [l]: no entry is
    above the one at [i], and those before it are below. *)
Definition first_largest (l : list f64) (i : nat) : Prop :=
  ∃ m, l !! i = Some m ∧
    ∀ j y, l !! j = Some y →
      F64.leb y m = true ∧ (j < i → F64.ltb y m = true).

(** [i] is the index of the first NaN of [l]. *)
Definition first_nan (l : list f64) (i : nat) : Prop :=
  ∃ m, l !! i = Some m ∧ F64.is_nan m = true ∧
    ∀ j y, j < i → l !! j = Some y → F64.is_nan y = false.

(** What [np.argmax] returns: the first NaN, or without NaN the first
    largest entry. *)
Definition first_maximum (l : list f64) (i : nat) : Prop :=
  first_nan l i
  ∨ ((∀ y, y ∈ l → F64.is_nan y = false) ∧ first_largest l i).

(** The default that [__init__] settles on: the one given, else the
    first choice without weights, else the choice at the [np.argmax] of the
    probabilities. *)
Definition default_resolved (default_value : value) (w : weights_arg)
    (l : list value) (probs : list f64) (d : value) : Prop :=
  if is_None default_value then
    if is_WeightsNone w then l !! 0 = Some d
    else ∃ i, np_argmax probs = inr i ∧ l !! i = Some d
  else d = default_value ∧ d ∈ l.

(** [tupled_weights] *)
Definition tupled (w : weights_arg) : option (list f64) :=
  match w with WeightsSeq ws => Some ws | _ => None end.

(** When the constructor raises a [ValueError], a [TypeError], and when
    it returns. *)
Definition raises_ValueError_when (choices : choices_arg)
    (default_value : value) (weights : weights_arg) : Prop :=
  ∃ l, choices = ChoicesSeq l ∧ (VNone ∉ l) ∧
    (¬ NoDup l
     ∨ (NoDup l ∧ weights_rejected weights l)
     ∨ (NoDup l ∧ weights_accepted weights l ∧ default_rejected default_value l)).

Definition raises_TypeError_when (choices : choices_arg)
    (weights : weights_arg) : Prop :=
  VNone ∈ iterate choices
  ∨ (∃ l, choices = ChoicesSet l)
  ∨ (∃ l, choices = ChoicesSeq l ∧ (VNone ∉ l) ∧ NoDup l ∧ weights_ill_typed weights).

Definition accepted (choices : choices_arg) (default_value : value)
    (weights : weights_arg) : Prop :=
  ∃ l, choices = ChoicesSeq l ∧ l ≠ [] ∧ (VNone ∉ l) ∧ NoDup l
    ∧ weights_accepted weights l ∧ ¬ default_rejected default_value l.

(** What holds of every instance the constructor returns. *)
Definition well_formed (d : CategoricalHyperparameter) : Prop :=
  choices d ≠ []
  ∧ (VNone ∉ choices d)
  ∧ NoDup (choices d)
  ∧ size d = length (choices d)
  ∧ length (probabilities d) = length (choices d)
  ∧ default_value d ∈ choices d.

(** Every choice of [a], with its probability, is a choice of [b] with
    an equal probability ([==] on floats), at some position. *)
Definition choices_match (a b : CategoricalHyperparameter) : Prop :=
  ∀ i c p, choices a !! i = Some c → probabilities a !! i = Some p →
    ∃ j q, choices b !! j = Some c ∧ probabilities b !! j = Some q
           ∧ F64.eqb p q = true.

(** Equality as the specification words it. *)
Definition same_domain (a b : CategoricalHyperparameter) : Prop :=
  name a = name b
  ∧ default_value a = default_value b
  ∧ length (choices a) = length (choices b)
  ∧ choices_match a b.

(** No probability of [d] is NaN. *)
Definition no_nan (d : CategoricalHyperparameter) : Prop :=
  ∀ p, p ∈ probabilities d → F64.is_nan p = false.

(** *** [_categorical_neighborhood_size] *)
Definition _categorical_neighborhood_size (self : CategoricalHyperparameter)
    (v : value) : nat :=
  if is_None v || negb (contains (choices self) v) then size self
  else size self - 1.

(** *** Examples

    Three choices; two domains with the same choices in two orders and
    the same probability for each choice; the weighted domain of the test
    of the writer; domains with an infinite weight, and with two weights
    whose sum overflows.  They are evaluated with [sequential_sum]. *)
Section Examples.

#[local] Existing Instance sequential_sum.

Definition example_abc : choices_arg :=
  ChoicesSeq [VStr "a"; VStr "b"; VStr "c"].

Definition example_ab : result CategoricalHyperparameter :=
  (__init__ "a" (ChoicesSeq [VStr "a"; VStr "b"]) (VStr "a") None
     (WeightsSeq [F64.of_Z 1; F64.of_Z 3]) []).1.

Definition example_ba : result CategoricalHyperparameter :=
  (__init__ "a" (ChoicesSeq [VStr "b"; VStr "a"]) (VStr "a") None
     (WeightsSeq [F64.ratio 9 2; F64.ratio 3 2]) []).1.

Definition example_weighted : result CategoricalHyperparameter :=
  (__init__ "a" (ChoicesSeq [VStr "a"; VStr "b"]) VNone None
     (WeightsSeq [F64.ratio 3 10; F64.ratio 7 10]) []).1.

Definition example_uniform : result CategoricalHyperparameter :=
  (__init__ "b" example_abc VNone None WeightsNone []).1.

Definition example_inf_last : result CategoricalHyperparameter :=
  (__init__ "a" (ChoicesSeq [VStr "a"; VStr "b"]) VNone None
     (WeightsSeq [F64.one; F64.infinity]) []).1.

Definition example_inf_first : result CategoricalHyperparameter :=
  (__init__ "a" (ChoicesSeq [VStr "a"; VStr "b"]) VNone None
     (WeightsSeq [F64.infinity; F64.one]) []).1.

Definition example_overflow : result CategoricalHyperparameter :=
  (__init__ "a" (ChoicesSeq [VStr "a"; VStr "b"]) VNone None
     (WeightsSeq [F64.huge; F64.huge]) []).1.

End Examples.

End Categorical.

(** ** The PCS writer *)

Module Pcs.
Import Categorical.

Inductive dialect : Type := Old | New.

Definition phrase : string := "The pcs format does not support".

(** [needle in haystack] on strings. *)
Fixpoint occurs (needle haystack : string) : bool :=
  String.prefix needle haystack
  || match haystack with
     | EmptyString => false
     | String _ rest => occurs needle rest
     end.

Definition render (v : value) : string :=
  match v with
  | VNone => "None"
  | VInt z => pretty z
  | VStr s => s
  end.

(** Modelled from the spec: the writers of the two PCS dialects
    ([ConfigSpace/read_and_write/pcs.py] and [pcs_new.py]) are not among
    the sources, only their test is.  A categorical is one line,
    [name {c1, c2} [default]] in the old dialect and
    [name categorical {c1, c2} [default]] in the new one; the grammar has
    no syntax for weights, and writing a categorical that carries weights
    is a fatal error, a [ValueError] whose message contains [phrase]. *)
Definition write_categorical (d : dialect) (hp : CategoricalHyperparameter)
  : result string :=
  match weights hp with
  | Some _ =>
      raise (ValueError
        (phrase +:+ " categorical hyperparameters with assigned weights"))
  | None =>
      ret (name hp
           +:+ match d with Old => " " | New => " categorical " end
           +:+ "{" +:+ String.concat ", " (render <$> choices hp) +:+ "} ["
           +:+ render (default_value hp) +:+ "]")
  end.

(** Modelled from the spec: the hyperparameter block of [write], one line
    per hyperparameter in the order of the space; the first error ends
    the writing. *)
Fixpoint write_lines (d : dialect) (space : list CategoricalHyperparameter)
  : result (list string) :=
  match space with
  | [] => ret []
  | hp :: rest =>
      line ← write_categorical d hp;
      lines ← write_lines d rest;
      ret (line :: lines)
  end.

Definition write (d : dialect) (space : list CategoricalHyperparameter)
  : result string :=
  lines ← write_lines d space;
  ret (String.concat (String (Ascii.ascii_of_nat 10) EmptyString) lines).

End Pcs.

(** ** Uses of a generator and the remaining methods *)

Module Uses.
Import Numpy Neighborhood Categorical.

(** The parts of what a call returns. *)
Definition outcome (r : result ndarray * RandomState * heap) : result ndarray :=
  r.1.1.

Definition heap_after (r : result ndarray * RandomState * heap) : heap := r.2.

(** An instance and a heap as a client can have them: the instance was
    built by [__post_init__] in some heap and has served some calls. *)
Definition instance (size0 : nat) (h0 : heap) : NeighborhoodCat :=
  (__post_init__ size0 h0).1.

Definition heap_of (size0 : nat) (h0 : heap) (rs : list request) : heap :=
  serve_all (instance size0 h0) rs (__post_init__ size0 h0).2.

(** [a[i] = x] by a client that holds the returned array. *)
Definition client_write (a : ndarray) (i x : nat) (h : heap) : heap :=
  setitem a i x h.

(** [num_choices] and [_probabilities], the deprecated properties. *)
Definition num_choices (self : CategoricalHyperparameter) : nat := size self.

Definition _probabilities (self : CategoricalHyperparameter) : list f64 :=
  probabilities self.

(** [s.replace(old, new)] for a non-empty [old]: the occurrences of [old]
    are replaced from left to right, without overlap.  [skip] counts the
    characters of a match that are still to be passed over. *)
Fixpoint replace_from (old new s : string) (skip : nat) : string :=
  match s with
  | EmptyString => EmptyString
  | String c rest =>
      match skip with
      | S k => replace_from old new rest k
      | 0 =>
          if String.prefix old s
          then new +:+ replace_from old new rest (String.length old - 1)
          else String c (replace_from old new rest 0)
      end
  end.

Definition replace (old new s : string) : string := replace_from old new s 0.



(** Examples: the weighted and the uniform domain of the examples above
    and what [to_uniform] makes of them, as values; the domains with an
    infinite weight and with an overflowing sum of weights. *)
Definition no_domain : CategoricalHyperparameter :=
  mk_CategoricalHyperparameter [] None EmptyString VNone None 0 []
    (UniformIntegerDistribution 0) (mk_NeighborhoodCat 0 None None).

Definition the (r : result CategoricalHyperparameter) : CategoricalHyperparameter :=
  match r with inr d => d | inl _ => no_domain end.

Definition weighted_d : CategoricalHyperparameter :=
  Eval vm_compute in the example_weighted.

Definition weighted_u : CategoricalHyperparameter :=
  Eval vm_compute in the (@to_uniform sequential_sum weighted_d []).1.

Definition uniform_d : CategoricalHyperparameter :=
  Eval vm_compute in the example_uniform.

Definition uniform_u : CategoricalHyperparameter :=
  Eval vm_compute in the (@to_uniform sequential_sum uniform_d [[0]]).1.

Definition inf_last_d : CategoricalHyperparameter :=
  Eval vm_compute in the example_inf_last.

Definition inf_first_d : CategoricalHyperparameter :=
  Eval vm_compute in the example_inf_first.

Definition overflow_d : CategoricalHyperparameter :=
  Eval vm_compute in the example_overflow.

(** The exceptions of the constructor, in the order of its checks. *)
Definition raised_by_init : list exn :=
  [TypeError "Choice 'None' is not supported";
   TypeError "Using a set of choices is prohibited";
   ValueError "Choices for categorical hyperparameters contain a choice more than once";
   TypeError "Using a set of weights is prohibited";
   ValueError "The list of weights and the list of choices are required to be of same length.";
   ValueError "Negative weights are not allowed.";
   ValueError "All weights are zero, at least one weight has to be strictly positive.";
   TypeError "The weights have to be a list, tuple or None.";
   ValueError "The default value has to be one of the choices.";
   ZeroDivisionError].

Section Str.

(** [str(v)] of a choice and [str(a)] of the array of probabilities are
    Python's and numpy's; they are parameters here. *)
Variable str_value : value → string.
Variable str_array : list f64 → string.



End Str.

End Uses.

(** * Properties *)

(** ** numpy *)

Module NumpyFacts.
Import Numpy.

Lemma contents_fresh (h : heap) (d : list nat) :
  contents (h ++ [d]) (mk_ndarray (length h) 0 (length d)) = d.
Proof.
  unfold contents; cbn [base start len].
  rewrite lookup_app_r by lia. rewrite Nat.sub_diag. simpl.
  rewrite drop_0. by apply take_ge.
Qed.

Lemma contents_extend (h h' : heap) (a : ndarray) :
  base a < length h → h `prefix_of` h' → contents h' a = contents h a.
Proof.
  intros Hlt [k ->]. unfold contents. by rewrite lookup_app_l.
Qed.

Lemma contents_slice_to (h : heap) (a : ndarray) (i : nat) :
  contents h (slice_to a i) = take i (contents h a).
Proof. unfold contents; cbn [slice_to base start len]. by rewrite take_take. Qed.

Lemma contents_slice_from (h : heap) (a : ndarray) (i : nat) :
  contents h (slice_from a i) = drop i (contents h a).
Proof.
  unfold contents; cbn [slice_from base start len].
  set (b := default [] (h !! base a)).
  destruct (decide (i ≤ len a)) as [Hle|Hgt].
  - rewrite Nat.min_l by done. rewrite <- drop_drop.
    rewrite take_drop_commute. do 2 f_equal. lia.
  - replace (len a - i) with 0 by lia. simpl.
    symmetry. apply drop_ge. rewrite length_take. lia.
Qed.

(** *** The exchange and the shuffle on a list *)

Lemma exchange_list_length (i j : nat) (l : list nat) :
  length (exchange_list i j l) = length l.
Proof.
  unfold exchange_list.
  destruct (l !! j), (l !! i); try done. by rewrite !length_insert.
Qed.

Lemma exchange_list_perm (i j : nat) (l : list nat) :
  exchange_list i j l ≡ₚ l.
Proof.
  unfold exchange_list.
  destruct (l !! j) as [xj|] eqn:Hj; [|done].
  destruct (l !! i) as [xi|] eqn:Hi; [|done].
  apply Permutation_inj. split; [by rewrite !length_insert|].
  exists (λ k, if decide (k = i) then j else if decide (k = j) then i else k).
  split.
  - intros k1 k2. repeat case_decide; congruence.
  - intros k.
    pose proof (lookup_lt_Some _ _ _ Hi). pose proof (lookup_lt_Some _ _ _ Hj).
    rewrite !list_lookup_insert, !length_insert.
    repeat case_decide; destruct_and?; subst; try done; try lia.
Qed.

Lemma shuffle_list_length (i : nat) (st : RandomState) (l : list nat) :
  length (shuffle_list i st l).2 = length l.
Proof.
  revert st l. induction i as [|i IH]; intros st l; [done|].
  simpl. rewrite IH. apply exchange_list_length.
Qed.

Lemma shuffle_list_perm (i : nat) (st : RandomState) (l : list nat) :
  (shuffle_list i st l).2 ≡ₚ l.
Proof.
  revert st l. induction i as [|i IH]; intros st l; [done|].
  simpl. rewrite IH. apply exchange_list_perm.
Qed.

(** *** The shuffle of a freshly allocated array

    The in-place loop on the last buffer of the heap is the loop on the
    list it holds; no other buffer is written. *)

Lemma setitem_fresh (h : heap) (d : list nat) (a : ndarray) (i x : nat) :
  base a = length h → start a = 0 →
  setitem a i x (h ++ [d]) = h ++ [<[i := x]> d].
Proof.
  intros Hb Hs. unfold setitem. rewrite Hb, Hs.
  replace (length h) with (length h + 0) at 1 by lia.
  by rewrite alter_app_r.
Qed.

Lemma getitem_fresh (h : heap) (d : list nat) (a : ndarray) (i : nat) :
  base a = length h → start a = 0 → getitem (h ++ [d]) a i = d !! i.
Proof.
  intros Hb Hs. unfold getitem. rewrite Hb, Hs.
  rewrite lookup_app_r by lia. by rewrite Nat.sub_diag.
Qed.

Lemma exchange_fresh (h : heap) (d : list nat) (a : ndarray) (i j : nat) :
  base a = length h → start a = 0 →
  exchange a i j (h ++ [d]) = h ++ [exchange_list i j d].
Proof.
  intros Hb Hs. unfold exchange, exchange_list.
  rewrite !getitem_fresh by done.
  destruct (d !! j), (d !! i); try done.
  by rewrite !setitem_fresh.
Qed.

Lemma shuffle_raw_fresh (i : nat) (h : heap) (d : list nat) (a : ndarray)
    (st : RandomState) :
  base a = length h → start a = 0 →
  shuffle_raw i a st (h ++ [d]) =
    ((shuffle_list i st d).1, h ++ [(shuffle_list i st d).2]).
Proof.
  intros Hb Hs. revert st d.
  induction i as [|i IH]; intros st d; [done|].
  simpl. rewrite exchange_fresh by done. apply IH.
Qed.

(** Allocating [d] and shuffling the new array: the heap grows by one
    buffer, a permutation of [d]. *)
Lemma shuffle_alloc (d : list nat) (st : RandomState) (h : heap) :
  let d' := (shuffle_list (length d - 1) st d).2 in
  (shuffle (alloc d h).1 st (alloc d h).2).2 = h ++ [d']
  ∧ contents (h ++ [d']) (alloc d h).1 = d'
  ∧ d' ≡ₚ d.
Proof.
  intros d'. unfold shuffle, alloc; simpl.
  rewrite shuffle_raw_fresh by done. simpl. split; [done|]. split.
  - rewrite <- (shuffle_list_length (length d - 1) st d).
    apply contents_fresh.
  - apply shuffle_list_perm.
Qed.

End NumpyFacts.

(** ** The neighbourhood generator *)

Module NeighborhoodFacts.
Import Numpy Neighborhood NumpyFacts.

Lemma elem_of_others (size pivot k : nat) :
  pivot < size → k ∈ others size pivot ↔ k < size ∧ k ≠ pivot.
Proof.
  intros. unfold others. rewrite elem_of_app, !elem_of_seq. lia.
Qed.

Lemma NoDup_others (size pivot : nat) : NoDup (others size pivot).
Proof.
  unfold others. apply NoDup_app. split_and!; try apply NoDup_seq.
  intros k. rewrite !elem_of_seq. lia.
Qed.

Lemma length_others (size pivot : nat) :
  pivot < size → length (others size pivot) = size - 1.
Proof. intros. unfold others. rewrite length_app, !length_seq. lia. Qed.

(** The two slices of the range around the pivot. *)
Lemma range_around (size pivot : nat) :
  pivot ≤ size →
  take pivot (seq 0 size) ++ drop (pivot + 1) (seq 0 size) = others size pivot.
Proof.
  intros. unfold others. rewrite take_seq, drop_seq.
  rewrite Nat.min_l by done. do 2 f_equal; lia.
Qed.

Lemma concatenate_around (size pivot : nat) (_range : ndarray) (h : heap) :
  pivot ≤ size → contents h _range = seq 0 size →
  contents h (slice_to _range pivot) ++ contents h (slice_from _range (pivot + 1))
  = others size pivot.
Proof.
  intros Hp Hr. rewrite contents_slice_to, contents_slice_from, Hr.
  by apply range_around.
Qed.

(** *** [__post_init__] *)

Lemma cache_pivot_spec (size i : nat) (h : heap) :
  i ≤ size →
  ∃ junk,
    cache_pivot size i h
    = (mk_ndarray (S (length h)) 0 (length (others size i)),
       h ++ [junk; others size i]).
Proof.
  intros Hi. unfold cache_pivot, arange, alloc, concatenate, alloc.
  exists (seq 0 size).
  pose proof (contents_fresh h (seq 0 size)) as Hc.
  rewrite (concatenate_around size i _ _ Hi Hc).
  rewrite length_app. simpl. rewrite Nat.add_1_r.
  by rewrite <- app_assoc.
Qed.

Lemma cache_pivots_spec (size : nat) (pivots : list nat) (acc : list ndarray)
    (h : heap) :
  Forall (λ i, i ≤ size) pivots →
  ∃ news h',
    cache_pivots size pivots acc h = (acc ++ news, h')
    ∧ h `prefix_of` h'
    ∧ Forall2 (λ i a, base a < length h' ∧ contents h' a = others size i)
        pivots news.
Proof.
  revert acc h. induction pivots as [|i rest IH]; intros acc h Hall.
  - exists [], h. simpl. by rewrite app_nil_r.
  - apply Forall_cons in Hall as [Hi Hrest].
    destruct (cache_pivot_spec size i h Hi) as [junk Hcp].
    cbn [cache_pivots]. rewrite Hcp.
    destruct (IH (acc ++ [mk_ndarray (S (length h)) 0 (length (others size i))])
                (h ++ [junk; others size i]) Hrest)
      as (news & h' & Heq & Hpre & Hall2).
    exists (mk_ndarray (S (length h)) 0 (length (others size i)) :: news), h'.
    rewrite Heq, <- app_assoc. split; [done|]. split.
    { etrans; [|exact Hpre]. by apply prefix_app_r. }
    constructor; [|done].
    assert (Hlen : S (length h) < length (h ++ [junk; others size i])).
    { rewrite length_app. simpl. lia. }
    split.
    + cbn [base]. apply prefix_length in Hpre. lia.
    + rewrite (contents_extend (h ++ [junk; others size i]) h'
                 (mk_ndarray (S (length h)) 0 (length (others size i))) Hlen Hpre).
      replace (h ++ [junk; others size i])
        with ((h ++ [junk]) ++ [others size i]) by by rewrite <- app_assoc.
      replace (S (length h)) with (length (h ++ [junk]))
        by (rewrite length_app; simpl; lia).
      apply contents_fresh.
Qed.

Lemma post_init_size (size0 : nat) (h : heap) :
  size (__post_init__ size0 h).1 = size0.
Proof.
  unfold __post_init__.
  destruct (size0 <=? _); [by destruct (cache_pivots _ _ _ _)|].
  destruct (size0 <=? _); [by destruct (arange _ _)|done].
Qed.

Lemma post_init_tiered (size0 : nat) (h : heap) :
  tiered (__post_init__ size0 h).1.
Proof.
  unfold tiered, __post_init__.
  destruct (size0 <=? CACHE_NEIGHBORS_CATEGORICAL_SIZE) eqn:H5.
  - apply Nat.leb_le in H5. destruct (cache_pivots _ _ _ _). simpl.
    split; [split; eauto|lia].
  - apply Nat.leb_gt in H5.
    destruct (size0 <=? _); [destruct (arange _ _)|]; simpl;
      (split; [split; [lia|by intros [? ?]]|done]).
Qed.

Lemma post_init_prefix (size0 : nat) (h : heap) :
  h `prefix_of` (__post_init__ size0 h).2.
Proof.
  unfold __post_init__.
  destruct (size0 <=? CACHE_NEIGHBORS_CATEGORICAL_SIZE).
  - destruct (cache_pivots_spec size0 (seq 0 size0) [] h)
      as (news & h' & Heq & Hpre & _).
    { apply Forall_seq. lia. }
    by rewrite Heq.
  - destruct (size0 <=? _); [|done]. simpl. by apply prefix_app_r.
Qed.

Lemma post_init_caches (size0 : nat) (h : heap) :
  caches_intact (__post_init__ size0 h).1 (__post_init__ size0 h).2
  ∧ caches_allocated (__post_init__ size0 h).1 (__post_init__ size0 h).2.
Proof.
  unfold __post_init__.
  destruct (size0 <=? CACHE_NEIGHBORS_CATEGORICAL_SIZE).
  - destruct (cache_pivots_spec size0 (seq 0 size0) [] h)
      as (news & h' & Heq & Hpre & Hall2).
    { apply Forall_seq. lia. }
    rewrite Heq. simpl.
    pose proof (Forall2_length _ _ _ Hall2) as Hlen. rewrite length_seq in Hlen.
    assert (Hk : ∀ i a, news !! i = Some a →
              base a < length h' ∧ contents h' a = others size0 i).
    { intros i a Ha.
      destruct (Forall2_lookup_r _ _ _ _ _ Hall2 Ha) as (j & Hj & Hja).
      apply lookup_seq in Hj as [-> _]. done. }
    split; split; simpl.
    + intros cached [= <-]. split; [done|]. intros i a Ha.
      by destruct (Hk i a Ha).
    + done.
    + intros cached i a [= <-] Ha. by destruct (Hk i a Ha).
    + done.
  - destruct (size0 <=? _); simpl.
    + split; split; simpl; try done.
      * intros r [= <-]. apply (contents_fresh h (seq 0 size0)).
      * intros r [= <-]. simpl. rewrite length_app. simpl. lia.
    + by repeat split.
Qed.

(** *** [__call__] *)

Lemma shuffled_perm (st : RandomState) (d : list nat) : shuffled st d ≡ₚ d.
Proof. apply shuffle_list_perm. Qed.

Lemma shuffled_length (st : RandomState) (d : list nat) :
  length (shuffled st d) = length d.
Proof. apply shuffle_list_length. Qed.

Lemma shuffle_fresh (d : list nat) (st : RandomState) (h : heap) :
  shuffle (mk_ndarray (length h) 0 (length d)) st (h ++ [d])
  = ((shuffle_list (length d - 1) st d).1, h ++ [shuffled st d]).
Proof. unfold shuffle. by rewrite shuffle_raw_fresh. Qed.

Lemma contents_shuffled (d : list nat) (st : RandomState) (h : heap) :
  contents (h ++ [shuffled st d]) (mk_ndarray (length h) 0 (length d))
  = shuffled st d.
Proof. rewrite <- (shuffled_length st d). apply contents_fresh. Qed.

(** The cached tier: a copy of the cached array is shuffled and
    returned as it is. *)
Lemma call_cached (self : NeighborhoodCat) (cached : list ndarray)
    (a : ndarray) (pivot n : nat) (seed : option RandomState)
    (entropy : RandomState) (h : heap) :
  _cached_neighbors self = Some cached → cached !! pivot = Some a →
  ∃ st',
    __call__ self pivot n seed entropy h
    = (ret (mk_ndarray (length h) 0 (length (contents h a))), st',
       h ++ [shuffled (default entropy seed) (contents h a)]).
Proof.
  intros Hc Ha. unfold __call__. rewrite Hc, Ha.
  unfold copy, alloc. rewrite shuffle_fresh. eauto.
Qed.

(** The other tiers: the two slices of the range are concatenated, the
    new array is shuffled and its first [n] entries are returned. *)
Lemma call_uncached (self : NeighborhoodCat) (pivot n : nat)
    (seed : option RandomState) (entropy : RandomState) (h : heap) :
  _cached_neighbors self = None →
  (∀ r, _cached_arange self = Some r → contents h r = seq 0 (size self)) →
  pivot ≤ size self →
  ∃ st' junk,
    __call__ self pivot n seed entropy h
    = (ret (slice_to (mk_ndarray (length (h ++ junk)) 0
                        (length (others (size self) pivot))) n), st',
       (h ++ junk) ++ [shuffled (default entropy seed) (others (size self) pivot)]).
Proof.
  intros Hc Hr Hp. unfold __call__. rewrite Hc.
  destruct (_cached_arange self) as [r|].
  - unfold concatenate, alloc.
    rewrite (concatenate_around (size self) pivot r h Hp (Hr r eq_refl)).
    rewrite shuffle_fresh. eexists _, []. by rewrite app_nil_r.
  - unfold arange, concatenate, alloc.
    pose proof (contents_fresh h (seq 0 (size self))) as Hfresh.
    rewrite (concatenate_around (size self) pivot _ _ Hp Hfresh).
    rewrite shuffle_fresh. eauto.
Qed.

(** A call only allocates: every buffer of the heap before the call is in
    the heap after it, unchanged. *)
Lemma call_prefix (self : NeighborhoodCat) (vector n : nat)
    (seed : option RandomState) (entropy : RandomState) (h : heap) :
  h `prefix_of` (__call__ self vector n seed entropy h).2.
Proof.
  unfold __call__.
  destruct (_cached_neighbors self) as [cached|].
  - destruct (cached !! vector) as [a|]; [|done].
    unfold copy, alloc. rewrite shuffle_fresh. simpl. by apply prefix_app_r.
  - destruct (_cached_arange self) as [r|];
      unfold arange, concatenate, alloc;
      match goal with
      | |- context [shuffle (mk_ndarray (length ?h') 0 (length ?d)) ?st (?h' ++ [?d])] =>
          rewrite (shuffle_fresh d st h')
      end; simpl.
    + by apply prefix_app_r.
    + rewrite <- app_assoc. by apply prefix_app_r.
Qed.

Lemma serve_all_prefix (self : NeighborhoodCat) (rs : list request) (h : heap) :
  h `prefix_of` serve_all self rs h.
Proof.
  revert h. induction rs as [|r rs IH]; intros h; [done|].
  simpl. etrans; [|apply IH]. apply call_prefix.
Qed.

Lemma caches_extend (self : NeighborhoodCat) (h h' : heap) :
  h `prefix_of` h' →
  caches_intact self h ∧ caches_allocated self h →
  caches_intact self h' ∧ caches_allocated self h'.
Proof.
  intros Hpre [[Hn Hr] [Han Har]].
  pose proof (prefix_length _ _ Hpre) as Hlen.
  split; split.
  - intros cached Hc. destruct (Hn cached Hc) as [Hl Hi]. split; [done|].
    intros i a Ha. rewrite (contents_extend h h' a); eauto.
  - intros r Hsome. rewrite (contents_extend h h' r); eauto.
  - intros cached i a Hc Ha. specialize (Han cached i a Hc Ha). lia.
  - intros r Hsome. specialize (Har r Hsome). lia.
Qed.

(** The state of an instance after its construction and any sequence of
    calls. *)
Lemma caches_after_calls (size0 : nat) (h0 : heap) (rs : list request) :
  let self := (__post_init__ size0 h0).1 in
  let h := serve_all self rs (__post_init__ size0 h0).2 in
  caches_intact self h ∧ caches_allocated self h.
Proof.
  intros self h. eapply caches_extend; [apply serve_all_prefix|].
  apply post_init_caches.
Qed.

(** What a call with a pivot of the domain returns, by tier. *)
Lemma call_returned (self : NeighborhoodCat) (pivot n : nat)
    (seed : option RandomState) (entropy : RandomState) (h : heap) :
  caches_intact self h → pivot < size self →
  ∃ d, d ≡ₚ others (size self) pivot ∧
    returned (__call__ self pivot n seed entropy h)
    = Some (match _cached_neighbors self with
            | Some _ => d
            | None => take n d
            end).
Proof.
  intros [Hn Hr] Hp.
  destruct (_cached_neighbors self) as [cached|] eqn:Hc.
  - destruct (Hn cached eq_refl) as [Hl Hi].
    destruct (lookup_lt_is_Some_2 cached pivot) as [a Ha]; [lia|].
    destruct (call_cached self cached a pivot n seed entropy h Hc Ha)
      as [st' ->].
    exists (shuffled (default entropy seed) (contents h a)). split.
    + rewrite shuffled_perm. by rewrite (Hi pivot a Ha).
    + simpl. by rewrite contents_shuffled.
  - destruct (call_uncached self pivot n seed entropy h Hc Hr) as (st' & junk & ->);
      [lia|].
    exists (shuffled (default entropy seed) (others (size self) pivot)). split.
    + apply shuffled_perm.
    + simpl. rewrite contents_slice_to. by rewrite contents_shuffled.
Qed.

(** *** The claims on the neighbourhood *)

(** C3. For every size [s >= 2] and every pivot [p] of [[0, s)], a call
    with pivot [p] and [n = s - 1], on an instance built by
    [__post_init__] and after any earlier calls, returns a permutation of
    [{0, ..., s-1} \ {p}]: no repeats, never [p], every other index. *)
Theorem neighbors_are_the_other_indices (s p : nat) (h0 : heap)
    (rs : list request) (seed : option RandomState) (entropy : RandomState) :
  2 ≤ s → p < s →
  let self := (__post_init__ s h0).1 in
  let h := serve_all self rs (__post_init__ s h0).2 in
  ∃ l, returned (__call__ self p (s - 1) seed entropy h) = Some l
       ∧ l ≡ₚ others s p
       ∧ NoDup l
       ∧ (p ∉ l)
       ∧ ∀ k, k < s → k ≠ p → k ∈ l.
Proof.
  intros Hs Hp self h.
  destruct (caches_after_calls s h0 rs) as [Hintact _].
  fold self in Hintact. fold h in Hintact.
  assert (Hsize : size self = s) by apply post_init_size.
  destruct (call_returned self p (s - 1) seed entropy h Hintact) as (d & Hd & Hret);
    [lia|].
  rewrite Hsize in Hd.
  assert (Hlen : length d = s - 1).
  { rewrite Hd. by apply length_others. }
  exists d. split.
  { rewrite Hret. destruct (_cached_neighbors self); [done|].
    by rewrite take_ge by lia. }
  split; [done|]. split; [rewrite Hd; apply NoDup_others|]. split.
  - rewrite Hd, elem_of_others by done. lia.
  - intros k Hk Hne. rewrite Hd, elem_of_others by done. done.
Qed.

Lemma neighbors_are_the_other_indices_witness :
  ∃ l, returned (__call__ (__post_init__ 7 []).1 2 (7 - 1) (Some example_seed)
                   example_seed
                   (serve_all (__post_init__ 7 []).1 example_requests
                      (__post_init__ 7 []).2)) = Some l
       ∧ l ≡ₚ others 7 2 ∧ NoDup l ∧ (2 ∉ l) ∧ ∀ k, k < 7 → k ≠ 2 → k ∈ l.
Proof.
  apply (neighbors_are_the_other_indices 7 2 [] example_requests
           (Some example_seed) example_seed); lia.
Defined.

(** C1, as the code has it. The length of what a call returns, for a pivot
    of the domain: the cached tier ([s <= 5]) returns all [s - 1] other
    indices whatever [n] is, the other tiers return [min n (s - 1)]. *)
Theorem neighbors_length_by_tier (s p n : nat) (h0 : heap)
    (rs : list request) (seed : option RandomState) (entropy : RandomState) :
  p < s →
  let self := (__post_init__ s h0).1 in
  let h := serve_all self rs (__post_init__ s h0).2 in
  length <$> returned (__call__ self p n seed entropy h)
  = Some (if s <=? CACHE_NEIGHBORS_CATEGORICAL_SIZE then s - 1
          else n `min` (s - 1)).
Proof.
  intros Hp self h.
  destruct (caches_after_calls s h0 rs) as [Hintact _].
  fold self in Hintact. fold h in Hintact.
  assert (Hsize : size self = s) by apply post_init_size.
  destruct (post_init_tiered s h0) as [Htier Hnone].
  fold self in Htier, Hnone. rewrite Hsize in Htier, Hnone.
  destruct (call_returned self p n seed entropy h Hintact) as (d & Hd & Hret);
    [lia|].
  rewrite Hsize in Hd.
  assert (Hlen : length d = s - 1).
  { rewrite Hd. by apply length_others. }
  rewrite Hret. simpl. f_equal.
  destruct (s <=? CACHE_NEIGHBORS_CATEGORICAL_SIZE) eqn:H5.
  - apply Nat.leb_le in H5. apply Htier in H5 as [cached ->]. done.
  - apply Nat.leb_gt in H5. rewrite (Hnone H5).
    rewrite length_take. lia.
Qed.

Lemma neighbors_length_by_tier_witness :
  length <$> returned (__call__ (__post_init__ 3 []).1 0 1 (Some example_seed)
                         example_seed
                         (serve_all (__post_init__ 3 []).1 []
                            (__post_init__ 3 []).2))
  = Some 2.
Proof.
  apply (neighbors_length_by_tier 3 0 1 [] [] (Some example_seed) example_seed).
  lia.
Defined.

(** C10. The caches are never written after the construction: after any
    sequence of calls, with any pivots, counts and generators, the cached
    list of pivot [i] is still the ascending sequence without [i] and the
    cached range is still the ascending range. *)
Theorem caches_never_mutated (size0 : nat) (h0 : heap) (rs : list request) :
  caches_intact (__post_init__ size0 h0).1
    (serve_all (__post_init__ size0 h0).1 rs (__post_init__ size0 h0).2).
Proof. apply caches_after_calls. Qed.

End NeighborhoodFacts.

(** ** IEEE 754 binary64 *)

Module F64Facts.
Import F64.

(** *** The order of the comparisons *)

Lemma lex_Lt (a b : Z * Z * Z) : lex a b = Lt ↔ lex_lt a b.
Proof.
  unfold lex, lex_lt.
  destruct (Z.compare_spec a.1.1 b.1.1), (Z.compare_spec a.1.2 b.1.2),
    (Z.compare_spec a.2 b.2); split; (discriminate || lia || reflexivity || idtac).
Qed.

Lemma lex_Gt (a b : Z * Z * Z) : lex a b = Gt ↔ lex_lt b a.
Proof.
  unfold lex, lex_lt.
  destruct (Z.compare_spec a.1.1 b.1.1), (Z.compare_spec a.1.2 b.1.2),
    (Z.compare_spec a.2 b.2); split; (discriminate || lia || reflexivity || idtac).
Qed.

Lemma lex_Eq (a b : Z * Z * Z) : lex a b = Eq ↔ a = b.
Proof.
  destruct a as [[a1 a2] a3], b as [[b1 b2] b3]. unfold lex. simpl. split.
  - destruct (Z.compare_spec a1 b1) as [->| |]; try done.
    destruct (Z.compare_spec a2 b2) as [->| |]; try done.
    by intros ->%Z.compare_eq_iff.
  - intros [= -> -> ->]. by rewrite !Z.compare_refl.
Qed.

Lemma compare_rank (x y : f64) :
  SFcompare x y
  = if is_nan x || is_nan y then None else Some (lex (rank x) (rank y)).
Proof.
  destruct x as [sx|sx| |sx mx ex], y as [sy|sy| |sy my ey];
    try destruct sx; try destruct sy; try reflexivity.
  unfold SFcompare, lex, rank; simpl.
  rewrite Z.compare_opp.
  destruct (Z.compare_spec ex ey) as [->|Hlt|Hgt].
  - rewrite Z.compare_refl. reflexivity.
  - by rewrite (proj2 (Z.compare_gt_iff _ _)) by lia.
  - by rewrite (proj2 (Z.compare_lt_iff _ _)) by lia.
Qed.

Lemma ltb_rank (x y : f64) :
  ltb x y = true
  ↔ is_nan x = false ∧ is_nan y = false ∧ lex_lt (rank x) (rank y).
Proof.
  unfold ltb, SFltb. rewrite compare_rank, <- lex_Lt.
  destruct (is_nan x), (is_nan y); simpl; try (split; [done|by intros (?&?&?)]).
  destruct (lex (rank x) (rank y)); split; try done; by intros (?&?&?).
Qed.

Lemma leb_rank (x y : f64) :
  leb x y = true
  ↔ is_nan x = false ∧ is_nan y = false ∧ ¬ lex_lt (rank y) (rank x).
Proof.
  unfold leb, SFleb. rewrite compare_rank, <- lex_Gt.
  destruct (is_nan x), (is_nan y); simpl; try (split; [done|by intros (?&?&?)]).
  destruct (lex (rank x) (rank y)); split; try done; try by intros (?&?&?).
Qed.

Lemma eqb_rank (x y : f64) :
  eqb x y = true ↔ is_nan x = false ∧ is_nan y = false ∧ rank x = rank y.
Proof.
  unfold eqb, SFeqb. rewrite compare_rank, <- lex_Eq.
  destruct (is_nan x), (is_nan y); simpl; try (split; [done|by intros (?&?&?)]).
  destruct (lex (rank x) (rank y)); split; try done; by intros (?&?&?).
Qed.

Lemma eqb_refl (x : f64) : eqb x x = negb (is_nan x).
Proof.
  destruct (is_nan x) eqn:Hn; simpl.
  - apply not_true_iff_false. rewrite eqb_rank. intros (? & _). congruence.
  - by apply eqb_rank.
Qed.

Lemma eqb_sym (x y : f64) : eqb x y = eqb y x.
Proof.
  apply eq_true_iff_eq. rewrite !eqb_rank. intuition congruence.
Qed.


Lemma eqb_not_nan (x y : f64) :
  eqb x y = true → is_nan x = false ∧ is_nan y = false.
Proof. rewrite eqb_rank. tauto. Qed.

Lemma leb_nan (x y : f64) : is_nan x = true → leb x y = false.
Proof.
  intros Hn. apply not_true_iff_false. rewrite leb_rank. intros (? & _).
  congruence.
Qed.

Lemma leb_refl (x : f64) : is_nan x = false → leb x x = true.
Proof.
  intros Hn. apply leb_rank. split_and!; try done. unfold lex_lt. lia.
Qed.

Lemma not_leb_ltb (x y : f64) :
  is_nan x = false → is_nan y = false → leb x y = false → ltb y x = true.
Proof.
  intros Hx Hy Hle. apply ltb_rank. split_and!; try done.
  apply not_true_iff_false in Hle. rewrite leb_rank in Hle.
  destruct (decide (lex_lt (rank y) (rank x))) as [|Hn]; [done|].
  exfalso. apply Hle. done.
Qed.

Lemma ltb_leb (x y : f64) : ltb x y = true → leb x y = true.
Proof.
  rewrite ltb_rank, leb_rank. unfold lex_lt. intros (? & ? & ?).
  split_and!; try done. lia.
Qed.

Lemma leb_ltb_trans (x y z : f64) :
  leb x y = true → ltb y z = true → ltb x z = true.
Proof.
  rewrite !ltb_rank, leb_rank. unfold lex_lt. intros (? & ? & ?) (? & ? & ?).
  split_and!; try done. lia.
Qed.

Lemma ltb_trans (x y z : f64) :
  ltb x y = true → ltb y z = true → ltb x z = true.
Proof.
  rewrite !ltb_rank. unfold lex_lt. intros (? & ? & ?) (? & ? & ?).
  split_and!; try done. lia.
Qed.

(** *** Results that are not NaN *)

Lemma iter_pos_invariant {A : Type} (P : A → Prop) (f : A → A) :
  (∀ x, P x → P (f x)) → ∀ p x, P x → P (SpecFloat.iter_pos f p x).
Proof.
  intros Hf. induction p as [p IH|p IH|]; intros x Hx; simpl; auto.
Qed.

Lemma shr_1_nonneg (mrs : shr_record) :
  (0 ≤ shr_m mrs)%Z → (0 ≤ shr_m (shr_1 mrs))%Z.
Proof.
  destruct mrs as [m r s]. simpl. destruct m as [|[p|p|]|p]; simpl; lia.
Qed.

Lemma shr_fexp_nonneg (m e : Z) (l : location) :
  (0 ≤ m)%Z → (0 ≤ shr_m (shr_fexp prec emax m e l).1)%Z.
Proof.
  intros Hm. unfold shr_fexp, shr.
  assert (Hrec : (0 ≤ shr_m (shr_record_of_loc m l))%Z).
  { by destruct l as [|[]]. }
  destruct (fexp prec emax (Zdigits2 m + e) - e)%Z; simpl; try done.
  by apply (iter_pos_invariant (λ r, (0 ≤ shr_m r)%Z) shr_1 shr_1_nonneg).
Qed.

Lemma round_nearest_even_nonneg (m : Z) (l : location) :
  (0 ≤ m)%Z → (0 ≤ round_nearest_even m l)%Z.
Proof.
  intros Hm. destruct l as [|[]]; simpl; try done; try lia.
  destruct (Z.even m); lia.
Qed.

Lemma binary_round_aux_not_nan (sx : bool) (m e : Z) (l : location) :
  (0 ≤ m)%Z → is_nan (binary_round_aux prec emax sx m e l) = false.
Proof.
  intros Hm. unfold binary_round_aux.
  pose proof (shr_fexp_nonneg m e l Hm) as H1.
  destruct (shr_fexp prec emax m e l) as [mrs' e']. simpl in H1.
  pose proof (shr_fexp_nonneg _ e' loc_Exact
                (round_nearest_even_nonneg _ (loc_of_shr_record mrs') H1)) as H2.
  destruct (shr_fexp prec emax _ e' loc_Exact) as [mrs'' e'']. simpl in H2.
  destruct (shr_m mrs''); [done| |lia].
  by destruct (_ <=? _)%Z.
Qed.

Lemma of_Z_not_nan (z : Z) : is_nan (of_Z z) = false.
Proof.
  unfold of_Z, binary_normalize, binary_round. destruct z as [|p|p]; [done| |].
  - destruct (shl_align _ _ _) as [mz ez]. by apply binary_round_aux_not_nan.
  - destruct (shl_align _ _ _) as [mz ez]. by apply binary_round_aux_not_nan.
Qed.

Lemma one_finite : one = S754_finite false 4503599627370496 (-52).
Proof. reflexivity. Qed.

Lemma div_one_not_nan (x : f64) : is_nan x = false → is_nan (div one x) = false.
Proof.
  rewrite one_finite. destruct x as [s|s| |s m e]; intros Hx; try done.
  unfold div, SFdiv, SFdiv_core_binary.
  set (m' := match _ with Zpos _ => _ | Z0 => _ | Zneg _ => _ end).
  assert (Hm' : (0 ≤ m')%Z).
  { unfold m'. destruct (_ - _ - _)%Z; try done. by apply Z.shiftl_nonneg. }
  pose proof (Z.div_pos m' (Zpos m) Hm' ltac:(done)) as Hq.
  unfold Z.div in Hq. destruct (Z.div_eucl m' (Zpos m)) as [q r]. simpl in Hq.
  by apply binary_round_aux_not_nan.
Qed.

(** [1 / size], the uniform probability, is a number. *)
Lemma uniform_not_nan (n : nat) : is_nan (div one (of_nat n)) = false.
Proof. apply div_one_not_nan, of_Z_not_nan. Qed.

End F64Facts.

(** ** The categorical hyperparameter *)

Module CategoricalFacts.
Import Numpy Neighborhood Categorical F64Facts.

(** *** Reflection of the checks *)

Lemma existsb_is_None (l : list value) :
  existsb is_None l = true ↔ VNone ∈ l.
Proof.
  rewrite existsb_exists. setoid_rewrite <- list_elem_of_In. split.
  - intros (x & Hx & Hn). by destruct x.
  - intros H. by exists VNone.
Qed.

Lemma existsb_negative (ws : list f64) :
  existsb (λ weight, F64.ltb weight F64.zero) ws = true
  ↔ ∃ x, x ∈ ws ∧ F64.ltb x F64.zero = true.
Proof. rewrite existsb_exists. by setoid_rewrite <- list_elem_of_In. Qed.

Lemma existsb_negative_false (ws : list f64) :
  existsb (λ weight, F64.ltb weight F64.zero) ws = false →
  ∀ x, x ∈ ws → F64.ltb x F64.zero = false.
Proof.
  intros Hneg x Hx. apply not_true_iff_false. intros Hlt.
  apply not_true_iff_false in Hneg. apply Hneg, existsb_negative. eauto.
Qed.

Lemma forallb_zero (ws : list f64) :
  forallb (λ weight, F64.eqb weight F64.zero) ws = true
  ↔ ∀ x, x ∈ ws → F64.eqb x F64.zero = true.
Proof. rewrite forallb_forall. by setoid_rewrite <- list_elem_of_In. Qed.

Lemma forallb_zero_false (ws : list f64) :
  forallb (λ weight, F64.eqb weight F64.zero) ws = false →
  ∃ x, x ∈ ws ∧ F64.eqb x F64.zero = false.
Proof.
  induction ws as [|w ws IH]; simpl; [done|].
  intros [Hw|Hws]%andb_false_iff.
  - exists w. split; [left|done].
  - destruct (IH Hws) as (x & Hx & Hnz). exists x. split; [by right|done].
Qed.

Lemma contains_elem_of (l : list value) (x : value) :
  contains l x = true ↔ x ∈ l.
Proof. unfold contains. apply bool_decide_eq_true. Qed.

(** *** [Counter] *)

Lemma tally_add (x y : value) (c : list (value * nat)) :
  tally (Counter_add x c) y = if decide (y = x) then S (tally c y) else tally c y.
Proof.
  induction c as [|[z k] c IH]; simpl.
  - by repeat case_decide.
  - repeat (case_decide; simpl; subst); try congruence; try done.
    all: rewrite IH; by repeat case_decide.
Qed.

Lemma occurrences_cons (y x : value) (l : list value) :
  occurrences y (x :: l) = (if decide (y = x) then 1 else 0) + occurrences y l.
Proof.
  unfold occurrences. rewrite filter_cons.
  repeat case_decide; subst; simpl; congruence.
Qed.

Lemma tally_foldl (l : list value) (c : list (value * nat)) (y : value) :
  tally (foldl (λ c x, Counter_add x c) c l) y = tally c y + occurrences y l.
Proof.
  revert c. induction l as [|x l IH]; intros c; simpl.
  - unfold occurrences. simpl. lia.
  - rewrite IH, tally_add, occurrences_cons. case_decide; lia.
Qed.

Lemma tally_Counter (l : list value) (y : value) :
  tally (Counter l) y = occurrences y l.
Proof. unfold Counter. by rewrite tally_foldl. Qed.

Lemma keys_add (x : value) (c : list (value * nat)) :
  ∀ z, z ∈ (Counter_add x c).*1 ↔ z = x ∨ z ∈ c.*1.
Proof.
  induction c as [|[y k] c IH]; intros z; simpl.
  - rewrite list_elem_of_singleton, elem_of_nil. tauto.
  - case_decide; subst; simpl; rewrite !elem_of_cons; [tauto|].
    rewrite IH. tauto.
Qed.

Lemma NoDup_keys_add (x : value) (c : list (value * nat)) :
  NoDup c.*1 → NoDup (Counter_add x c).*1.
Proof.
  induction c as [|[y k] c IH]; simpl; intros Hc.
  - apply NoDup_singleton.
  - apply NoDup_cons in Hc as [Hy Hc].
    case_decide; subst; simpl; apply NoDup_cons; [done|].
    split; [|by apply IH]. rewrite keys_add. intros [?|?]; [congruence|done].
Qed.

Lemma NoDup_keys_Counter (l : list value) : NoDup (Counter l).*1.
Proof.
  unfold Counter. generalize (NoDup_nil_2 (A:=value)).
  change (@nil value) with ((@nil (value * nat)).*1).
  generalize (@nil (value * nat)).
  induction l as [|x l IH]; intros c Hc; simpl; [done|].
  apply IH. by apply NoDup_keys_add.
Qed.

Lemma tally_entry (c : list (value * nat)) (z : value) (k : nat) :
  NoDup c.*1 → (z, k) ∈ c → tally c z = k.
Proof.
  induction c as [|[y j] c IH]; simpl; intros Hc Hin.
  - by apply elem_of_nil in Hin.
  - apply NoDup_cons in Hc as [Hy Hc].
    apply elem_of_cons in Hin as [[= -> ->]|Hin].
    + by case_decide.
    + case_decide; subst; [|by apply IH].
      exfalso. apply Hy. apply list_elem_of_fmap. by exists (y, k).
Qed.

Lemma entry_tally (c : list (value * nat)) (z : value) :
  tally c z ≠ 0 → (z, tally c z) ∈ c.
Proof.
  induction c as [|[y j] c IH]; simpl; intros Hne; [done|].
  case_decide; subst; [left|right; by apply IH].
Qed.

Lemma NoDup_occurrences (l : list value) :
  NoDup l ↔ ∀ y, occurrences y l ≤ 1.
Proof.
  induction l as [|x l IH].
  - split; [intros _ y; unfold occurrences; simpl; lia|constructor].
  - rewrite NoDup_cons, IH. setoid_rewrite occurrences_cons.
    assert (Hnotin : x ∉ l ↔ occurrences x l = 0).
    { unfold occurrences. rewrite length_zero_iff_nil. split.
      - intros Hx. destruct (filter _ l) as [|z k] eqn:Hf; [done|exfalso].
        assert (Hz : z ∈ filter (λ z, z = x) l) by (rewrite Hf; left).
        apply list_elem_of_filter in Hz as [-> Hz]. done.
      - intros Hf Hx. by apply (filter_nil_not_elem_of _ l x Hf). }
    rewrite Hnotin. split.
    + intros [H0 H1] y. specialize (H1 y). case_decide; subst; lia.
    + intros H. split.
      * specialize (H x). rewrite decide_True in H by done. lia.
      * intros y. specialize (H y). case_decide; lia.
Qed.

(** The loop over [counter.items()] finds a count above one exactly when
    the choices have a duplicate. *)
Lemma Counter_no_duplicate (l : list value) :
  find (λ '(choice, count), 1 <? count) (Counter l) = None ↔ NoDup l.
Proof.
  rewrite NoDup_occurrences. split.
  - intros Hfind y.
    destruct (decide (occurrences y l ≤ 1)) as [|Hgt]; [done|exfalso].
    rewrite <- tally_Counter in Hgt.
    assert (Hin : (y, tally (Counter l) y) ∈ Counter l)
      by (apply entry_tally; lia).
    apply list_elem_of_In in Hin.
    pose proof (find_none _ _ Hfind _ Hin) as Hf. simpl in Hf.
    apply Nat.ltb_ge in Hf. lia.
  - intros Hall.
    destruct (find _ (Counter l)) as [[z k]|] eqn:Hfind; [exfalso|done].
    apply find_some in Hfind as [Hin Hk].
    apply Nat.ltb_lt in Hk. apply list_elem_of_In in Hin.
    apply tally_entry in Hin; [|apply NoDup_keys_Counter].
    rewrite tally_Counter in Hin. specialize (Hall z). lia.
Qed.

(** *** The checks on the weights *)

Lemma check_weights_cases (w : weights_arg) (l : list value) :
  match check_weights w l with
  | inl (TypeError _) => weights_ill_typed w
  | inl (ValueError _) => weights_rejected w l
  | inl _ => False
  | inr t => weights_accepted w l ∧ t = tupled w
  end.
Proof.
  destruct w as [|ws|ws|]; simpl.
  - split; [by left|done].
  - unfold raise_if.
    destruct (length ws =? length l) eqn:Hlen; simpl.
    2: { apply Nat.eqb_neq in Hlen. exists ws. split; [done|by left]. }
    apply Nat.eqb_eq in Hlen.
    destruct (existsb _ ws) eqn:Hneg; simpl.
    { apply existsb_negative in Hneg. exists ws. split; [done|right; by left]. }
    destruct (forallb _ ws) eqn:Hzero; simpl.
    { rewrite forallb_zero in Hzero. exists ws. split; [done|right; by right]. }
    split; [|done]. right. exists ws. split_and!; try done.
    + by apply existsb_negative_false.
    + by apply forallb_zero_false.
  - left. eauto.
  - by right.
Qed.

(** *** [np.argmax] returns the first NaN, or else the first largest entry *)

Lemma first_maximum_lt (l : list f64) (i : nat) :
  first_maximum l i → i < length l.
Proof.
  intros [(m & Hm & _)|[_ (m & Hm & _)]]; by eapply lookup_lt_Some.
Qed.

Lemma argmax_from_spec (l pre : list f64) (max_ind : nat) (mp : f64) :
  (∀ y, y ∈ pre → F64.is_nan y = false) →
  first_largest pre max_ind → pre !! max_ind = Some mp →
  first_maximum (pre ++ l) (argmax_from max_ind mp (length pre) l).
Proof.
  revert pre max_ind mp.
  induction l as [|x l IH]; intros pre max_ind mp Hnan Hfl Hmp.
  - rewrite app_nil_r. by right.
  - assert (Hmpn : F64.is_nan mp = false).
    { apply Hnan. by eapply list_elem_of_lookup_2. }
    assert (Hmax : ∀ j y, pre !! j = Some y →
              F64.leb y mp = true ∧ (j < max_ind → F64.ltb y mp = true)).
    { destruct Hfl as (m & Hm & Hall). rewrite Hmp in Hm. by injection Hm as <-. }
    pose proof (lookup_lt_Some _ _ _ Hmp) as Hlt.
    assert (Hstep : ∀ max_ind' mp',
              (∀ y, y ∈ pre ++ [x] → F64.is_nan y = false) →
              first_largest (pre ++ [x]) max_ind' →
              (pre ++ [x]) !! max_ind' = Some mp' →
              first_maximum (pre ++ x :: l)
                (argmax_from max_ind' mp' (S (length pre)) l)).
    { intros max_ind' mp' H1 H2 H3.
      specialize (IH (pre ++ [x]) max_ind' mp' H1 H2 H3).
      rewrite length_app, <- app_assoc in IH. simpl in IH.
      by rewrite Nat.add_1_r in IH. }
    assert (Hat : (pre ++ [x]) !! length pre = Some x).
    { by rewrite lookup_app_r, Nat.sub_diag. }
    simpl. destruct (F64.leb x mp) eqn:Hle; simpl.
    + (* not above the maximum: it stays *)
      assert (Hxn : F64.is_nan x = false).
      { destruct (F64.is_nan x) eqn:Hn; [|done].
        by rewrite (leb_nan x mp Hn) in Hle. }
      apply Hstep.
      * intros y [Hy|Hy%list_elem_of_singleton]%elem_of_app; [by apply Hnan|by subst].
      * exists mp. split; [by rewrite lookup_app_l|].
        intros j y Hj. destruct (decide (j < length pre)) as [Hjl|Hjl].
        -- rewrite lookup_app_l in Hj by done. by apply Hmax.
        -- rewrite lookup_app_r in Hj by lia.
           apply list_lookup_singleton_Some in Hj as [_ <-].
           split; [done|lia].
      * by rewrite lookup_app_l.
    + destruct (F64.is_nan x) eqn:Hxn.
      * (* a NaN ends the loop *)
        left. exists x. split; [|split; [done|]].
        -- by rewrite lookup_app_r, Nat.sub_diag.
        -- intros j y Hj Hy. rewrite lookup_app_l in Hy by done.
           apply Hnan. by eapply list_elem_of_lookup_2.
      * (* above the maximum: it replaces it *)
        pose proof (not_leb_ltb x mp Hxn Hmpn Hle) as Hgt.
        apply Hstep.
        -- intros y [Hy|Hy%list_elem_of_singleton]%elem_of_app;
             [by apply Hnan|by subst].
        -- exists x. split; [done|].
           intros j y Hj. destruct (decide (j < length pre)) as [Hjl|Hjl].
           ++ rewrite lookup_app_l in Hj by done.
              destruct (Hmax j y Hj) as [Hym _].
              pose proof (leb_ltb_trans y mp x Hym Hgt) as Hyx.
              split; [by apply ltb_leb|done].
           ++ rewrite lookup_app_r in Hj by lia.
              apply list_lookup_singleton_Some in Hj as [_ <-].
              split; [by apply leb_refl|lia].
        -- done.
Qed.

Lemma np_argmax_spec (l : list f64) :
  l ≠ [] → ∃ i, np_argmax l = inr i ∧ first_maximum l i.
Proof.
  destruct l as [|x l]; [done|]. intros _. simpl.
  destruct (F64.is_nan x) eqn:Hx.
  - exists 0. split; [done|]. left. exists x. split_and!; try done. lia.
  - exists (argmax_from 0 x 1 l). split; [done|].
    apply (argmax_from_spec l [x] 0 x); [| |done].
    + by intros y ->%list_elem_of_singleton.
    + exists x. split; [done|].
      intros [|j] y Hj; simplify_eq/=. split; [by apply leb_refl|lia].
Qed.

(** The two cases exclude one another, and the index is unique. *)
Lemma first_maximum_unique (l : list f64) (i j : nat) :
  first_maximum l i → first_maximum l j → i = j.
Proof.
  assert (Hnan : ∀ a b, first_nan l a → first_nan l b → ¬ a < b).
  { intros a b (m & Hm & Hn & _) (m' & _ & _ & Hb) Hab.
    specialize (Hb a m Hab Hm). congruence. }
  assert (Hlar : ∀ a b, first_largest l a → first_largest l b → ¬ a < b).
  { intros a b (m & Hm & Ha) (m' & Hm' & Hb) Hab.
    destruct (Hb a m Hm) as [_ Hlt]. specialize (Hlt Hab).
    destruct (Ha b m' Hm') as [Hle _].
    apply ltb_rank in Hlt as (_ & _ & Hlt).
    apply leb_rank in Hle as (_ & _ & Hle). done. }
  intros [Hi|[Hni Hi]] [Hj|[Hnj Hj]].
  - pose proof (Hnan i j Hi Hj). pose proof (Hnan j i Hj Hi). lia.
  - destruct Hi as (m & Hm & Hn & _).
    rewrite (Hnj m) in Hn; [done|by eapply list_elem_of_lookup_2].
  - destruct Hj as (m & Hm & Hn & _).
    rewrite (Hni m) in Hn; [done|by eapply list_elem_of_lookup_2].
  - pose proof (Hlar i j Hi Hj). pose proof (Hlar j i Hj Hi). lia.
Qed.

Section Constructor.

Context {summation : Summation}.

(** *** The paths through the constructor *)

Lemma resolve_cases (name : string) (ch : choices_arg) (dv : value)
    (w : weights_arg) :
  match resolve name ch dv w with
  | inl (TypeError _) => raises_TypeError_when ch w
  | inl (ValueError _) => raises_ValueError_when ch dv w
  | inl ZeroDivisionError => ch = ChoicesSeq [] ∧ w = WeightsNone ∧ dv = VNone
  | inl IndexError => False
  | inr r =>
      accepted ch dv w
      ∧ ch = ChoicesSeq (r_choices r)
      ∧ r_weights r = tupled w
      ∧ r_size r = length (r_choices r)
      ∧ r_probabilities r = probabilities_of w (r_size r)
      ∧ default_resolved dv w (r_choices r) (r_probabilities r) (r_default r)
  end.
Proof.
  unfold resolve, raise_if.
  destruct (existsb is_None (iterate ch)) eqn:HNone; simpl.
  { left. by apply existsb_is_None. }
  apply not_true_iff_false in HNone. rewrite existsb_is_None in HNone.
  destruct ch as [l|l]; simpl in *.
  2: { right; left; eauto. }
  destruct (find _ (Counter l)) eqn:Hdup; simpl.
  { exists l. split_and!; try done. left. intros Hnd.
    apply Counter_no_duplicate in Hnd. congruence. }
  apply Counter_no_duplicate in Hdup.
  pose proof (check_weights_cases w l) as Hw.
  destruct (check_weights w l) as [e|t]; simpl.
  { destruct e; try done.
    - right; right. exists l. done.
    - exists l. split_and!; try done. right; left. done. }
  destruct Hw as [Hacc ->].
  destruct (negb (is_None dv) && negb (contains l dv)) eqn:Hdef; simpl.
  { apply andb_true_iff in Hdef as [Hd1 Hd2].
    exists l. split_and!; try done. right; right. split_and!; try done.
    split.
    - by destruct dv.
    - apply negb_true_iff, not_true_iff_false in Hd2.
      by rewrite contains_elem_of in Hd2. }
  assert (Hok : ¬ default_rejected dv l).
  { intros [Hd1 Hd2]. apply andb_false_iff in Hdef as [Hd|Hd].
    - by destruct dv.
    - apply negb_false_iff, contains_elem_of in Hd. done. }
  assert (Hgiven : is_None dv = false → contains l dv = true).
  { intros Hn. rewrite Hn in Hdef. simpl in Hdef.
    by apply negb_false_iff in Hdef. }
  destruct Hacc as [->|(ws & -> & Hlen & Hpos & Hnz)]; simpl.
  - (* no weights *)
    unfold int_div_1. destruct l as [|c l]; simpl.
    { split_and!; try done. destruct dv; try done; by specialize (Hgiven eq_refl). }
    assert (Hacc : accepted (ChoicesSeq (c :: l)) dv WeightsNone).
    { exists (c :: l). split_and!; try done. by left. }
    rewrite andb_true_r. destruct (is_None dv) eqn:Hn; simpl.
    + split_and!; try done. unfold default_resolved. by rewrite Hn.
    + rewrite (Hgiven eq_refl). simpl. split_and!; try done.
      unfold default_resolved. rewrite Hn. split; [done|].
      apply contains_elem_of. by apply Hgiven.
  - (* a sequence of weights *)
    assert (Hne : l ≠ []).
    { destruct Hnz as (x & Hx & _). intros ->. destruct ws; [|done].
      by apply elem_of_nil in Hx. }
    assert (Hacc : accepted (ChoicesSeq l) dv (WeightsSeq ws)).
    { exists l. split_and!; try done. right. exists ws. split_and!; eauto. }
    rewrite andb_false_r. destruct (is_None dv) eqn:Hn; simpl.
    + set (probs := (λ w0 : f64, F64.div w0 (np_sum ws)) <$> ws).
      destruct (np_argmax_spec probs) as (i & Hi & Hfm).
      { unfold probs. destruct ws; [|done].
        destruct l; [done|]. done. }
      rewrite Hi. simpl. unfold tuple_getitem.
      destruct (lookup_lt_is_Some_2 l i) as [c Hc].
      { apply first_maximum_lt in Hfm. unfold probs in Hfm.
        rewrite length_fmap in Hfm. lia. }
      rewrite Hc. simpl. split_and!; try done.
      unfold default_resolved. rewrite Hn. simpl. eauto.
    + rewrite (Hgiven eq_refl). simpl. split_and!; try done.
      unfold default_resolved. rewrite Hn. split; [done|].
      apply contains_elem_of. by apply Hgiven.
Qed.

Lemma init_result (name : string) (ch : choices_arg) (dv : value)
    (meta : meta_t) (w : weights_arg) (h : heap) :
  (__init__ name ch dv meta w h).1
  = match resolve name ch dv w with
    | inl e => inl e
    | inr r =>
        inr (mk_CategoricalHyperparameter (r_choices r) (r_weights r) name
               (r_default r) meta (r_size r) (r_probabilities r)
               (r_vector_dist r) (__post_init__ (r_size r) h).1)
    end.
Proof.
  unfold __init__. destruct (resolve name ch dv w) as [e|r]; [done|].
  by destruct (__post_init__ (r_size r) h).
Qed.

Lemma init_prefix (name : string) (ch : choices_arg) (dv : value)
    (meta : meta_t) (w : weights_arg) (h : heap) :
  h `prefix_of` (__init__ name ch dv meta w h).2.
Proof.
  unfold __init__. destruct (resolve name ch dv w) as [e|r]; [done|].
  pose proof (NeighborhoodFacts.post_init_prefix (r_size r) h) as Hpre.
  by destruct (__post_init__ (r_size r) h).
Qed.

(** The outcomes exclude one another. *)
Lemma rejected_not_accepted (w : weights_arg) (l : list value) :
  weights_rejected w l → weights_accepted w l → False.
Proof.
  intros (ws & -> & Hrej) [?|(ws' & [= <-] & Hlen & Hpos & x & Hx & Hnz)];
    [done|].
  destruct Hrej as [Hne|[(y & Hy & Hneg)|Hzero]].
  - done.
  - specialize (Hpos y Hy). congruence.
  - rewrite (Hzero x Hx) in Hnz. done.
Qed.

Lemma ill_typed_not_accepted (w : weights_arg) (l : list value) :
  weights_ill_typed w → weights_accepted w l → False.
Proof. intros [[ws ->]| ->] [?|(ws' & ? & _)]; done. Qed.

Lemma ValueError_not_TypeError ch dv w :
  raises_ValueError_when ch dv w → raises_TypeError_when ch w → False.
Proof.
  intros (l & -> & Hn & Hve) [Hte|[[l' ?]|(l' & [= <-] & _ & Hnd & Hill)]];
    [done..|].
  destruct Hve as [?|[[_ Hrej]|(_ & Hacc & _)]]; [done| |].
  - destruct Hrej as (ws & -> & _). by destruct Hill as [[? ?]|?].
  - by eapply ill_typed_not_accepted.
Qed.

Lemma ValueError_not_accepted ch dv w :
  raises_ValueError_when ch dv w → accepted ch dv w → False.
Proof.
  intros (l & -> & Hn & Hve) (l' & [= <-] & _ & _ & Hnd & Hacc & Hdef).
  destruct Hve as [?|[[_ Hrej]|(_ & _ & ?)]]; [done| |done].
  by eapply rejected_not_accepted.
Qed.

Lemma TypeError_not_accepted ch dv w :
  raises_TypeError_when ch w → accepted ch dv w → False.
Proof.
  intros Hte (l & -> & _ & Hn & _ & Hacc & _).
  destruct Hte as [?|[[l' ?]|(l' & [= <-] & _ & _ & Hill)]]; [done..|].
  by eapply ill_typed_not_accepted.
Qed.

Lemma init_outcomes (name : string) (ch : choices_arg) (dv : value)
    (meta : meta_t) (w : weights_arg) (h : heap) :
  let r := (__init__ name ch dv meta w h).1 in
  (is_ValueError r = true ↔ raises_ValueError_when ch dv w)
  ∧ (is_TypeError r = true ↔ raises_TypeError_when ch w)
  ∧ ((∃ d, r = inr d) ↔ accepted ch dv w)
  ∧ (iterate ch ≠ [] →
     is_ValueError r = true ∨ is_TypeError r = true ∨ ∃ d, r = inr d).
Proof.
  intros r. subst r. rewrite init_result.
  pose proof (resolve_cases name ch dv w) as Hc.
  destruct (resolve name ch dv w) as [[msg|msg| |]|r]; simpl.
  - split_and!; [split; try done..|intros _; by right; left].
    + intros Hve. exfalso. by eapply ValueError_not_TypeError.
    + by intros [d ?].
    + intros Hacc. exfalso. by eapply TypeError_not_accepted.
  - split_and!; [split; try done..|intros _; by left].
    + intros Hte. exfalso. by eapply ValueError_not_TypeError.
    + by intros [d ?].
    + intros Hacc. exfalso. by eapply ValueError_not_accepted.
  - destruct Hc as (-> & -> & ->).
    split_and!; [split; try done..|by intros []].
    + intros (l & [= <-] & _ & [Hd|[[_ (ws & ? & _)]|(_ & _ & ? & _)]]);
        [|done..]. exfalso. apply Hd. constructor.
    + intros [Hn|[[l ?]|(l & _ & _ & _ & [[? ?]|?])]]; try done.
      exfalso. simpl in Hn. by apply elem_of_nil in Hn.
    + by intros [d ?].
    + by intros (l & [= <-] & ? & _).
  - done.
  - destruct Hc as (Hacc & _).
    split_and!; [split; try done..|intros _; right; right; eauto].
    + intros Hve. exfalso. by eapply ValueError_not_accepted.
    + intros Hte. exfalso. by eapply TypeError_not_accepted.
    + eauto.
Qed.

(** *** The claims on the constructor *)

(** C2, as the code has it. The constructor raises [ValueError] exactly
    when the choices are an ordered sequence without [None] and they hold
    a duplicate, or else the sequence of weights has the wrong length, a
    negative weight or only zeros, or else the default is given and is not
    a choice.  It raises [TypeError] exactly when a choice is [None], the
    choices are a set, or else (without duplicate) the weights are a set
    or not a sequence.  It returns exactly when the choices are a
    non-empty sequence and none of the above holds; with at least one
    choice these three outcomes are the only ones. *)
Theorem constructor_outcomes (name : string) (ch : choices_arg) (dv : value)
    (meta : meta_t) (w : weights_arg) (h : heap) :
  let r := (__init__ name ch dv meta w h).1 in
  (is_ValueError r = true ↔ raises_ValueError_when ch dv w)
  ∧ (is_TypeError r = true ↔ raises_TypeError_when ch w)
  ∧ ((∃ d, r = inr d) ↔ accepted ch dv w)
  ∧ (iterate ch ≠ [] →
     is_ValueError r = true ∨ is_TypeError r = true ∨ ∃ d, r = inr d).
Proof. apply init_outcomes. Qed.


(** *** Instances that the constructor returned *)

Lemma length_probabilities_of (w : weights_arg) (l : list value) :
  weights_accepted w l → length (probabilities_of w (length l)) = length l.
Proof.
  intros [->|(ws & -> & Hlen & _)]; simpl.
  - unfold np_full. by rewrite length_replicate.
  - by rewrite length_fmap.
Qed.

Lemma constructed_well_formed (d : CategoricalHyperparameter) :
  constructed d → well_formed d.
Proof.
  intros (name & ch & dv & meta & w & h & Hd). rewrite init_result in Hd.
  pose proof (resolve_cases name ch dv w) as Hc.
  destruct (resolve name ch dv w) as [e|r]; [done|].
  injection Hd as <-. unfold well_formed; simpl.
  destruct Hc as ((l & -> & Hne & Hn & Hnd & Hacc & _) & [= <-] & _ & Hsize & Hp & Hdef).
  split_and!; try done.
  - rewrite Hp, Hsize. by apply length_probabilities_of.
  - unfold default_resolved in Hdef.
    destruct (is_None dv); [|by destruct Hdef].
    destruct (is_WeightsNone w).
    + by eapply list_elem_of_lookup_2.
    + destruct Hdef as (i & _ & Hi). by eapply list_elem_of_lookup_2.
Qed.

End Constructor.

(** *** [__eq__] *)

Lemma tuple_index_spec (l : list value) (c : value) :
  c ∈ l → NoDup l →
  ∃ j, tuple_index l c = inr j ∧ l !! j = Some c
       ∧ ∀ j', l !! j' = Some c → j' = j.
Proof.
  intros Hin Hnd. unfold tuple_index.
  destruct (list_find_elem_of (λ y, y = c) l c Hin eq_refl) as [[j y] Hf].
  rewrite Hf. apply list_find_Some in Hf as (Hj & -> & _).
  exists j. split_and!; try done.
  intros j' Hj'. by eapply NoDup_lookup.
Qed.

Lemma eq_loop_spec (pairs : list (value * f64)) (other : CategoricalHyperparameter) :
  well_formed other →
  ∃ r, eq_loop pairs other = inr r ∧
    (r = true ↔
     ∀ c p, (c, p) ∈ pairs →
       ∃ j q, choices other !! j = Some c ∧ probabilities other !! j = Some q
              ∧ F64.eqb p q = true).
Proof.
  intros (_ & _ & Hnd & _ & Hlen & _).
  induction pairs as [|[c p] rest IH]; simpl.
  - exists true. split; [done|]. split; [|done].
    intros _ c p Hin. by apply elem_of_nil in Hin.
  - destruct (contains (choices other) c) eqn:Hin; simpl.
    2: { exists false. split; [done|]. split; [done|]. intros Hall. exfalso.
         destruct (Hall c p) as (j & q & Hj & _); [left|].
         apply not_true_iff_false in Hin. apply Hin, contains_elem_of.
         by eapply list_elem_of_lookup_2. }
    apply contains_elem_of in Hin.
    destruct (tuple_index_spec _ _ Hin Hnd) as (j & -> & Hj & Huniq). simpl.
    unfold tuple_getitem.
    destruct (lookup_lt_is_Some_2 (probabilities other) j) as [q Hq].
    { apply lookup_lt_Some in Hj. lia. }
    rewrite Hq. simpl.
    destruct (F64.eqb p q) eqn:Hpq; simpl.
    + destruct IH as (r & -> & Hr). exists r. split; [done|].
      rewrite Hr. split.
      * intros Hall c' p' [[= -> ->]|Hin']%elem_of_cons; eauto.
      * intros Hall c' p' Hin'. apply Hall. by right.
    + exists false. split; [done|]. split; [done|]. intros Hall. exfalso.
      destruct (Hall c p) as (j' & q' & Hj' & Hq' & Heq); [left|].
      apply Huniq in Hj' as ->. rewrite Hq in Hq'. injection Hq' as <-.
      congruence.
Qed.

Lemma elem_of_zip_lookup (l : list value) (k : list f64) (c : value) (p : f64) :
  (c, p) ∈ zip l k ↔ ∃ i, l !! i = Some c ∧ k !! i = Some p.
Proof.
  rewrite list_elem_of_lookup. by setoid_rewrite lookup_zip_Some.
Qed.

(** [__eq__] returns a boolean, the truth of [same_domain]. *)
Lemma eq_well_formed (a b : CategoricalHyperparameter) :
  well_formed b →
  ∃ r, __eq__ a (Instance_of_class b) = inr r ∧ (r = true ↔ same_domain a b).
Proof.
  intros Hb. unfold __eq__, same_domain.
  destruct (bool_decide (name a = name b)) eqn:Hname; simpl.
  2: { apply bool_decide_eq_false in Hname. exists false.
       split; [done|]. split; [done|]. by intros (? & _). }
  apply bool_decide_eq_true in Hname.
  destruct (bool_decide (default_value a = default_value b)) eqn:Hdef; simpl.
  2: { apply bool_decide_eq_false in Hdef. exists false.
       split; [done|]. split; [done|]. by intros (_ & ? & _). }
  apply bool_decide_eq_true in Hdef.
  destruct (length (choices a) =? length (choices b)) eqn:Hlen; simpl.
  2: { apply Nat.eqb_neq in Hlen. exists false.
       split; [done|]. split; [done|]. by intros (_ & _ & ? & _). }
  apply Nat.eqb_eq in Hlen.
  destruct (eq_loop_spec (zip (choices a) (probabilities a)) b Hb)
    as (r & -> & Hr).
  exists r. split; [done|]. rewrite Hr. unfold choices_match.
  setoid_rewrite elem_of_zip_lookup. split.
  - intros Hall. split_and!; try done. intros i c p Hi Hp. apply Hall. eauto.
  - intros (_ & _ & _ & Hall) c p (i & Hi & Hp). eauto.
Qed.

(** The one-directional probe is a bijection: with as many choices on
    both sides and no duplicate, the choices of the two are the same
    set. *)
Lemma choices_match_sym (a b : CategoricalHyperparameter) :
  well_formed a → well_formed b →
  length (choices a) = length (choices b) →
  choices_match a b → choices_match b a.
Proof.
  intros (_ & _ & Hnda & _ & Hla & _) (_ & _ & Hndb & _ & Hlb & _) Hlen Hab.
  assert (Hsub : ∀ c, c ∈ choices a → c ∈ choices b).
  { intros c [i Hi]%list_elem_of_lookup_1.
    destruct (lookup_lt_is_Some_2 (probabilities a) i) as [p Hp].
    { apply lookup_lt_Some in Hi. lia. }
    destruct (Hab i c p Hi Hp) as (j & q & Hj & _).
    by eapply list_elem_of_lookup_2. }
  assert (Hperm : choices a ≡ₚ choices b).
  { apply submseteq_length_Permutation; [by apply NoDup_submseteq|lia]. }
  intros j c q Hj Hq.
  assert (Hin : c ∈ choices a).
  { rewrite Hperm. by eapply list_elem_of_lookup_2. }
  apply list_elem_of_lookup_1 in Hin as [i Hi].
  destruct (lookup_lt_is_Some_2 (probabilities a) i) as [p Hp].
  { apply lookup_lt_Some in Hi. lia. }
  destruct (Hab i c p Hi Hp) as (j' & q' & Hj' & Hq' & Heq).
  assert (j' = j) as -> by by eapply NoDup_lookup.
  rewrite Hq in Hq'. injection Hq' as <-.
  exists i, p. split_and!; try done. by rewrite eqb_sym.
Qed.

Lemma same_domain_sym (a b : CategoricalHyperparameter) :
  well_formed a → well_formed b → same_domain a b → same_domain b a.
Proof.
  intros Ha Hb (Hname & Hdef & Hlen & Hmatch). split_and!; try done.
  by apply choices_match_sym.
Qed.


(** A domain is the same as itself exactly when no probability of it is
    NaN, the one float that differs from itself. *)
Lemma same_domain_refl (a : CategoricalHyperparameter) :
  well_formed a → same_domain a a ↔ no_nan a.
Proof.
  intros (_ & _ & Hnd & _ & Hlen & _). unfold no_nan. split.
  - intros (_ & _ & _ & Hmatch) p [i Hp]%list_elem_of_lookup_1.
    destruct (lookup_lt_is_Some_2 (choices a) i) as [c Hc].
    { apply lookup_lt_Some in Hp. lia. }
    destruct (Hmatch i c p Hc Hp) as (j & q & Hj & Hq & Heq).
    by apply eqb_not_nan in Heq as [? _].
  - intros Hnn. split_and!; try done. intros i c p Hi Hp.
    exists i, p. split_and!; try done.
    rewrite eqb_refl, (Hnn p); [done|by eapply list_elem_of_lookup_2].
Qed.

Section Methods.

Context {summation : Summation}.

Lemma eq_spec (a b : CategoricalHyperparameter) :
  constructed b →
  ∃ r, __eq__ a (Instance_of_class b) = inr r ∧ (r = true ↔ same_domain a b).
Proof. intros Hb%constructed_well_formed. by apply eq_well_formed. Qed.

Lemma eq_true (a b : CategoricalHyperparameter) :
  constructed b →
  __eq__ a (Instance_of_class b) = inr true ↔ same_domain a b.
Proof.
  intros Hb. destruct (eq_spec a b Hb) as (r & -> & Hiff).
  rewrite <- Hiff. split; [by intros [= ->]|by intros ->].
Qed.

(** C6. Two domains compare equal exactly when they have the same name,
    the same default, as many choices, and every choice of the first is a
    choice of the second, at any position, with an equal probability. *)
Theorem eq_same_domain (a b : CategoricalHyperparameter) :
  constructed a → constructed b →
  ∃ r, __eq__ a (Instance_of_class b) = inr r ∧ (r = true ↔ same_domain a b).
Proof. intros _ Hb. by apply eq_spec. Qed.

Lemma eq_is_symmetric (a b : CategoricalHyperparameter) :
  constructed a → constructed b →
  __eq__ a (Instance_of_class b) = inr true →
  __eq__ b (Instance_of_class a) = inr true.
Proof.
  intros Ha Hb. rewrite !eq_true by done.
  apply same_domain_sym; by apply constructed_well_formed.
Qed.


Lemma eq_reflexive_iff (a : CategoricalHyperparameter) :
  constructed a →
  __eq__ a (Instance_of_class a) = inr true ↔ no_nan a.
Proof.
  intros Ha. rewrite eq_true by done.
  by apply same_domain_refl, constructed_well_formed.
Qed.


(** *** [to_uniform] *)

(** C7. [to_uniform] returns a new domain with the name, the choices and
    the default of [d], without weights and with the probability
    [1 / size] for every choice.  It writes nothing that existed: the heap
    after the call extends the heap before it, so the arrays of [d] are
    as they were, and the other fields of [d] are immutable values. *)
Theorem to_uniform_spec (d : CategoricalHyperparameter) (h : heap) :
  constructed d →
  ∃ d', (to_uniform d h).1 = inr d'
    ∧ name d' = name d
    ∧ choices d' = choices d
    ∧ default_value d' = default_value d
    ∧ meta d' = meta d
    ∧ weights d' = None
    ∧ probabilities d'
      = replicate (size d) (F64.div F64.one (F64.of_nat (size d)))
    ∧ h `prefix_of` (to_uniform d h).2.
Proof.
  intros (Hne & Hn & Hnd & Hsize & _ & Hdef)%constructed_well_formed.
  unfold to_uniform.
  pose proof (init_prefix (name d) (ChoicesSeq (choices d)) (default_value d)
                (meta d) WeightsNone h) as Hpre.
  destruct (init_outcomes (name d) (ChoicesSeq (choices d))
              (default_value d) (meta d) WeightsNone h) as (_ & _ & [_ Hacc] & _).
  destruct Hacc as [d' Hd'].
  { exists (choices d). split_and!; try done; [by left|].
    intros [_ Hnot]. done. }
  exists d'. split; [done|].
  rewrite init_result in Hd'.
  pose proof (resolve_cases (name d) (ChoicesSeq (choices d)) (default_value d)
                WeightsNone) as Hc.
  destruct (resolve _ _ _ _) as [e|r]; [done|]. injection Hd' as <-. simpl.
  destruct Hc as (_ & [= Hch] & Hw & Hsz & Hp & Hdr).
  unfold default_resolved in Hdr.
  assert (is_None (default_value d) = false) as Hnn.
  { destruct (default_value d) eqn:Hv; try done. }
  rewrite Hnn in Hdr. destruct Hdr as [Hdv _].
  split_and!; try done.
  rewrite Hp, Hsz, <- Hch, <- Hsize. done.
Qed.

(** *** Normalisation *)

Lemma div_infinity (x : f64) :
  F64.eqb (F64.div x F64.infinity) F64.zero = true
  ∨ F64.is_nan (F64.div x F64.infinity) = true.
Proof. destruct x as [[]|[]| |[] m e]; vm_compute; auto. Qed.

(** C5, as the code has it.  The probabilities are the quotients of the
    weights by their [np.sum], and [1 / size] without weights.  Nothing
    makes them sum to one: when the sum of the weights overflows, every
    probability is zero or NaN. *)
Theorem normalisation (name : string) (ch : choices_arg) (dv : value)
    (meta : meta_t) (w : weights_arg) (h : heap)
    (d : CategoricalHyperparameter) :
  (__init__ name ch dv meta w h).1 = inr d →
  (w = WeightsNone →
   probabilities d = replicate (size d) (F64.div F64.one (F64.of_nat (size d))))
  ∧ (∀ ws, w = WeightsSeq ws →
       probabilities d = (λ x, F64.div x (np_sum ws)) <$> ws
       ∧ (np_sum ws = F64.infinity →
          ∀ p, p ∈ probabilities d →
            F64.eqb p F64.zero = true ∨ F64.is_nan p = true)).
Proof.
  rewrite init_result. intros Hd.
  pose proof (resolve_cases name ch dv w) as Hc.
  destruct (resolve name ch dv w) as [e|r]; [done|].
  injection Hd as <-. simpl.
  destruct Hc as (_ & _ & _ & _ & Hprobs & _).
  split; [by intros ->|]. intros ws ->. split; [done|].
  intros Hinf p. rewrite Hprobs. simpl. rewrite Hinf.
  intros (x & -> & _)%list_elem_of_fmap. apply div_infinity.
Qed.

End Methods.

(** *** The examples *)

Section Examples.

#[local] Existing Instance sequential_sum.

Ltac computed := vm_compute; reflexivity.

(** C2, as the claim has it, fails: a [None] among the choices and a set
    of choices raise [TypeError], not [ValueError]. *)
Lemma None_choice_and_set_raise_TypeError :
  let with_None :=
    (__init__ "a" (ChoicesSeq [VStr "x"; VNone]) VNone None WeightsNone []).1 in
  let with_set :=
    (__init__ "a" (ChoicesSet [VStr "x"; VStr "y"]) VNone None WeightsNone []).1 in
  is_ValueError with_None = false
  ∧ with_None = raise (TypeError "Choice 'None' is not supported")
  ∧ is_ValueError with_set = false
  ∧ with_set = raise (TypeError "Using a set of choices is prohibited").
Proof. repeat split. Qed.



Lemma example_ab_constructed (a : CategoricalHyperparameter) :
  example_ab = inr a → constructed a.
Proof. intros H. unfold constructed. do 6 eexists. exact H. Qed.

Lemma example_ba_constructed (b : CategoricalHyperparameter) :
  example_ba = inr b → constructed b.
Proof. intros H. unfold constructed. do 6 eexists. exact H. Qed.

Lemma example_weighted_constructed (d : CategoricalHyperparameter) :
  example_weighted = inr d → constructed d.
Proof. intros H. unfold constructed. do 6 eexists. exact H. Qed.

Lemma eq_same_domain_witness :
  ∃ a b, example_ab = inr a ∧ example_ba = inr b
    ∧ choices a ≠ choices b
    ∧ __eq__ a (Instance_of_class b) = inr true
    ∧ ∃ r, __eq__ a (Instance_of_class b) = inr r ∧ (r = true ↔ same_domain a b).
Proof.
  eexists _, _. split; [computed|]. split; [computed|].
  split; [discriminate|]. split; [computed|].
  apply eq_same_domain.
  - apply example_ab_constructed. computed.
  - apply example_ba_constructed. computed.
Defined.



Lemma to_uniform_spec_witness :
  ∃ d, example_weighted = inr d ∧
  ∃ d', (to_uniform d []).1 = inr d'
    ∧ name d' = name d
    ∧ choices d' = choices d
    ∧ default_value d' = default_value d
    ∧ meta d' = meta d
    ∧ weights d' = None
    ∧ probabilities d'
      = replicate (size d) (F64.div F64.one (F64.of_nat (size d)))
    ∧ [] `prefix_of` (to_uniform d []).2.
Proof.
  eexists. split; [computed|].
  apply to_uniform_spec. apply example_weighted_constructed. computed.
Defined.

Lemma normalisation_witness :
  ∃ d, example_overflow = inr d
    ∧ weights d = Some [F64.huge; F64.huge]
    ∧ np_sum [F64.huge; F64.huge] = F64.infinity
    ∧ probabilities d = [F64.zero; F64.zero]
    ∧ np_sum (probabilities d) = F64.zero
    ∧ (WeightsSeq [F64.huge; F64.huge] = WeightsNone →
       probabilities d
       = replicate (size d) (F64.div F64.one (F64.of_nat (size d))))
    ∧ (∀ ws, WeightsSeq [F64.huge; F64.huge] = WeightsSeq ws →
         probabilities d = (λ x, F64.div x (np_sum ws)) <$> ws
         ∧ (np_sum ws = F64.infinity →
            ∀ p, p ∈ probabilities d →
              F64.eqb p F64.zero = true ∨ F64.is_nan p = true)).
Proof.
  eexists. split; [computed|]. do 4 (split; [computed|]).
  apply (normalisation "a" (ChoicesSeq [VStr "a"; VStr "b"]) VNone None
           (WeightsSeq [F64.huge; F64.huge]) []).
  computed.
Defined.

End Examples.

End CategoricalFacts.

(** ** The PCS writer *)

Module PcsFacts.
Import Categorical Pcs.

Lemma write_categorical_weighted (d : dialect) (hp : CategoricalHyperparameter) :
  weights hp ≠ None →
  ∃ msg, write_categorical d hp = raise (ValueError msg)
         ∧ occurs phrase msg = true.
Proof.
  intros Hw. unfold write_categorical.
  destruct (weights hp) as [ws|]; [|done].
  eexists. split; reflexivity.
Qed.

Lemma write_categorical_outcome (d : dialect) (hp : CategoricalHyperparameter) :
  (∃ line, write_categorical d hp = ret line)
  ∨ (∃ msg, write_categorical d hp = raise (ValueError msg)
            ∧ occurs phrase msg = true).
Proof.
  unfold write_categorical. destruct (weights hp); [right|left]; eauto.
Qed.

(** C8. Writing a space that holds a categorical with weights, in either
    dialect, is a fatal error whose message names the missing support: no
    text is produced. *)
Theorem weighted_categorical_is_not_written (d : dialect)
    (space : list CategoricalHyperparameter) (hp : CategoricalHyperparameter) :
  hp ∈ space → weights hp ≠ None →
  ∃ msg, write d space = raise (ValueError msg) ∧ occurs phrase msg = true.
Proof.
  intros Hin Hw.
  assert (Hlines : ∃ msg, write_lines d space = raise (ValueError msg)
                          ∧ occurs phrase msg = true).
  { induction space as [|hp0 rest IH]; [by apply elem_of_nil in Hin|].
    simpl. apply elem_of_cons in Hin as [<-|Hin].
    - destruct (write_categorical_weighted d hp Hw) as (msg & -> & Hmsg).
      by exists msg.
    - destruct (write_categorical_outcome d hp0) as [[line ->]|(msg & -> & Hmsg)].
      + destruct (IH Hin) as (msg & -> & Hmsg). by exists msg.
      + by exists msg. }
  destruct Hlines as (msg & Hl & Hmsg). exists msg. unfold write.
  by rewrite Hl.
Qed.

Lemma weighted_categorical_is_not_written_witness :
  ∃ u w, example_uniform = inr u ∧ example_weighted = inr w ∧
  ∃ msg, write Old [u; w] = raise (ValueError msg) ∧ occurs phrase msg = true.
Proof.
  eexists _, _. split; [vm_compute; reflexivity|].
  split; [vm_compute; reflexivity|].
  eapply weighted_categorical_is_not_written.
  - right; left.
  - discriminate.
Defined.

End PcsFacts.

(** ** More on the neighbourhood generator *)

Module NeighborhoodMore.
Import Numpy Neighborhood NumpyFacts NeighborhoodFacts Uses.

Lemma contents_last (h : heap) (d : list nat) (a : ndarray) :
  base a = length h → start a = 0 → contents (h ++ [d]) a = take (len a) d.
Proof.
  intros Hb Hs. unfold contents. rewrite Hb, Hs.
  rewrite lookup_app_r by lia. rewrite Nat.sub_diag. simpl. by rewrite drop_0.
Qed.

(** The state of a client: what holds of [instance s h0] in
    [heap_of s h0 rs]. *)
Lemma instance_facts (s : nat) (h0 : heap) (rs : list request) :
  size (instance s h0) = s
  ∧ tiered (instance s h0)
  ∧ caches_intact (instance s h0) (heap_of s h0 rs)
  ∧ caches_allocated (instance s h0) (heap_of s h0 rs).
Proof.
  unfold instance, heap_of. split; [apply post_init_size|].
  split; [apply post_init_tiered|]. apply caches_after_calls.
Qed.

(** A call with a pivot of the domain, in full: the array it returns is the
    buffer it has just allocated, the generator has moved on, the heap has
    grown. *)
Lemma call_in_range (self : NeighborhoodCat) (pivot n : nat)
    (seed : option RandomState) (entropy : RandomState) (h : heap) :
  caches_intact self h → pivot < size self →
  let st := default entropy seed in
  let d := others (size self) pivot in
  ∃ junk a,
    __call__ self pivot n seed entropy h
    = (ret a, (shuffle_list (length d - 1) st d).1,
       (h ++ junk) ++ [shuffled st d])
    ∧ base a = length (h ++ junk) ∧ start a = 0
    ∧ len a = match _cached_neighbors self with
              | Some _ => length d
              | None => n `min` length d
              end.
Proof.
  intros [Hn Hr] Hp st d. unfold __call__.
  destruct (_cached_neighbors self) as [cached|] eqn:Hc.
  - destruct (Hn cached eq_refl) as [Hl Hi].
    destruct (lookup_lt_is_Some_2 cached pivot) as [a Ha]; [lia|].
    rewrite Ha. unfold copy, alloc. rewrite shuffle_fresh.
    rewrite (Hi pivot a Ha). fold d. fold st.
    exists [], (mk_ndarray (length h) 0 (length d)).
    by rewrite app_nil_r.
  - destruct (_cached_arange self) as [r|] eqn:Har.
    + unfold concatenate, alloc.
      rewrite (concatenate_around (size self) pivot r h) by (auto with lia).
      rewrite shuffle_fresh. fold d. fold st.
      exists [], (slice_to (mk_ndarray (length h) 0 (length d)) n).
      by rewrite app_nil_r.
    + unfold arange, concatenate, alloc.
      pose proof (contents_fresh h (seq 0 (size self))) as Hfresh.
      rewrite (concatenate_around (size self) pivot _ _ (Nat.lt_le_incl _ _ Hp) Hfresh).
      rewrite shuffle_fresh. fold d. fold st.
      exists [seq 0 (size self)],
        (slice_to (mk_ndarray (length (h ++ [seq 0 (size self)])) 0 (length d)) n).
      done.
Qed.

(** What it returns is the pure shuffle of the other indices, cut to [n]
    outside the cached tier. *)
Lemma call_returns (self : NeighborhoodCat) (pivot n : nat)
    (seed : option RandomState) (entropy : RandomState) (h : heap) :
  caches_intact self h → pivot < size self →
  returned (__call__ self pivot n seed entropy h)
  = Some (match _cached_neighbors self with
          | Some _ => shuffled (default entropy seed) (others (size self) pivot)
          | None => take n (shuffled (default entropy seed)
                              (others (size self) pivot))
          end).
Proof.
  intros Hi Hp.
  destruct (call_in_range self pivot n seed entropy h Hi Hp)
    as (junk & a & -> & Hb & Hs & Hlen).
  simpl. rewrite contents_last by done. rewrite Hlen. f_equal.
  destruct (_cached_neighbors self).
  - apply take_ge. by rewrite shuffled_length.
  - rewrite <- take_take. f_equal. apply take_ge. by rewrite shuffled_length.
Qed.

(** A pivot beyond the domain, outside the cached tier: the slices are
    clamped, so the whole range is shuffled. *)
Lemma call_beyond (self : NeighborhoodCat) (pivot n : nat)
    (seed : option RandomState) (entropy : RandomState) (h : heap) :
  caches_intact self h → _cached_neighbors self = None → size self ≤ pivot →
  returned (__call__ self pivot n seed entropy h)
  = Some (take n (shuffled (default entropy seed) (seq 0 (size self)))).
Proof.
  intros [_ Hr] Hc Hp. unfold __call__. rewrite Hc.
  assert (Hall : ∀ (r : ndarray) (h' : heap),
            contents h' r = seq 0 (size self) →
            contents h' (slice_to r pivot) ++ contents h' (slice_from r (pivot + 1))
            = seq 0 (size self)).
  { intros r h' Hcont. rewrite contents_slice_to, contents_slice_from, Hcont.
    rewrite take_ge, drop_ge by (rewrite length_seq; lia). apply app_nil_r. }
  destruct (_cached_arange self) as [r|] eqn:Har.
  - unfold concatenate, alloc. rewrite (Hall r h (Hr r eq_refl)).
    rewrite shuffle_fresh. simpl. rewrite contents_slice_to.
    by rewrite contents_shuffled.
  - unfold arange, concatenate, alloc.
    rewrite (Hall _ _ (contents_fresh h (seq 0 (size self)))).
    rewrite shuffle_fresh. simpl. rewrite contents_slice_to.
    by rewrite contents_shuffled.
Qed.

Lemma instance_cached (s : nat) (h0 : heap) :
  match _cached_neighbors (instance s h0) with
  | Some _ => s ≤ CACHE_NEIGHBORS_CATEGORICAL_SIZE
  | None => CACHE_NEIGHBORS_CATEGORICAL_SIZE < s
  end.
Proof.
  pose proof (post_init_size s h0) as Hsize.
  destruct (post_init_tiered s h0) as [Htier Hnone].
  fold (instance s h0) in Hsize, Htier, Hnone. rewrite Hsize in Htier, Hnone.
  destruct (_cached_neighbors (instance s h0)) as [c|] eqn:Hc.
  - apply Htier. eauto.
  - destruct (decide (s ≤ CACHE_NEIGHBORS_CATEGORICAL_SIZE)) as [Hle|]; [|lia].
    apply Htier in Hle as [? ?]. done.
Qed.

(** *** Properties of the calls *)

(** X1. Whatever [n] is, a call with a pivot of the domain returns indices
    of the domain without repeats and never the pivot. *)
Theorem neighbors_never_hold_the_pivot (s p n : nat) (h0 : heap)
    (rs : list request) (seed : option RandomState) (entropy : RandomState) :
  p < s →
  ∃ l, returned (__call__ (instance s h0) p n seed entropy (heap_of s h0 rs))
       = Some l
       ∧ NoDup l
       ∧ ∀ k, k ∈ l → k < s ∧ k ≠ p.
Proof.
  intros Hp.
  destruct (instance_facts s h0 rs) as (Hsize & _ & Hintact & _).
  rewrite call_returns by (done || lia). rewrite Hsize.
  set (d := shuffled (default entropy seed) (others s p)).
  assert (Hnd : NoDup d).
  { unfold d. rewrite shuffled_perm. apply NoDup_others. }
  assert (Hin : ∀ k, k ∈ d → k < s ∧ k ≠ p).
  { intros k. unfold d. rewrite shuffled_perm. by apply elem_of_others. }
  destruct (_cached_neighbors (instance s h0)).
  - exists d. done.
  - exists (take n d). split; [done|]. split.
    + apply (sublist_NoDup _ d Hnd), sublist_take.
    + intros k Hk. apply Hin. by eapply subseteq_take.
Qed.

Lemma neighbors_never_hold_the_pivot_witness :
  ∃ l, returned (__call__ (instance 7 []) 2 3 None example_seed
                   (heap_of 7 [] example_requests)) = Some l
       ∧ NoDup l ∧ ∀ k, k ∈ l → k < 7 ∧ k ≠ 2.
Proof.
  apply (neighbors_never_hold_the_pivot 7 2 3 [] example_requests None
           example_seed). lia.
Defined.

(** X2. On the cached tier a pivot beyond the domain raises [IndexError];
    the generator and the heap are left as they were. *)
Theorem cached_tier_pivot_out_of_range (s p n : nat) (h0 : heap)
    (rs : list request) (seed : option RandomState) (entropy : RandomState) :
  s ≤ CACHE_NEIGHBORS_CATEGORICAL_SIZE → s ≤ p →
  __call__ (instance s h0) p n seed entropy (heap_of s h0 rs)
  = (raise IndexError, default entropy seed, heap_of s h0 rs).
Proof.
  intros Hs Hp.
  destruct (instance_facts s h0 rs) as (Hsize & _ & [Hn _] & _).
  pose proof (instance_cached s h0) as Hc. unfold __call__.
  destruct (_cached_neighbors (instance s h0)) as [cached|]; [|lia].
  destruct (Hn cached eq_refl) as [Hl _].
  rewrite lookup_ge_None_2; [done|]. rewrite Hl, Hsize. done.
Qed.

Lemma cached_tier_pivot_out_of_range_witness :
  __call__ (instance 4 []) 4 2 None example_seed (heap_of 4 [] example_requests)
  = (raise IndexError, example_seed, heap_of 4 [] example_requests).
Proof.
  apply (cached_tier_pivot_out_of_range 4 4 2 [] example_requests None
           example_seed); unfold CACHE_NEIGHBORS_CATEGORICAL_SIZE; lia.
Defined.

(** X3. Outside the cached tier there is no check of the pivot: with a
    pivot beyond the domain the call returns, without an exception, the
    first [n] entries of a permutation of the whole range [0, ..., s-1]. *)
Theorem uncached_tiers_pivot_out_of_range (s p n : nat) (h0 : heap)
    (rs : list request) (seed : option RandomState) (entropy : RandomState) :
  CACHE_NEIGHBORS_CATEGORICAL_SIZE < s → s ≤ p →
  ∃ d, d ≡ₚ seq 0 s
       ∧ returned (__call__ (instance s h0) p n seed entropy (heap_of s h0 rs))
         = Some (take n d).
Proof.
  intros Hs Hp.
  destruct (instance_facts s h0 rs) as (Hsize & _ & Hintact & _).
  pose proof (instance_cached s h0) as Hc.
  destruct (_cached_neighbors (instance s h0)) as [cached|] eqn:Hcn; [lia|].
  exists (shuffled (default entropy seed) (seq 0 s)).
  split; [apply shuffled_perm|].
  rewrite call_beyond by (done || lia). by rewrite Hsize.
Qed.

Lemma uncached_tiers_pivot_out_of_range_witness :
  ∃ d, d ≡ₚ seq 0 7
       ∧ returned (__call__ (instance 7 []) 9 7 None example_seed
                     (heap_of 7 [] example_requests))
         = Some (take 7 d).
Proof.
  apply (uncached_tiers_pivot_out_of_range 7 9 7 [] example_requests None
           example_seed); unfold CACHE_NEIGHBORS_CATEGORICAL_SIZE; lia.
Defined.

(** X4. The neighbours depend on the size, the pivot, the count and the
    generator only: two instances of one size, built in any heaps and
    after any calls, return the same array for the same generator. *)
Theorem same_generator_same_neighbors (s p n : nat) (h1 h2 : heap)
    (rs1 rs2 : list request) (seed : option RandomState) (entropy : RandomState) :
  p < s →
  returned (__call__ (instance s h1) p n seed entropy (heap_of s h1 rs1))
  = returned (__call__ (instance s h2) p n seed entropy (heap_of s h2 rs2)).
Proof.
  intros Hp.
  destruct (instance_facts s h1 rs1) as (Hsize1 & _ & Hintact1 & _).
  destruct (instance_facts s h2 rs2) as (Hsize2 & _ & Hintact2 & _).
  rewrite !call_returns by (done || lia). rewrite Hsize1, Hsize2.
  pose proof (instance_cached s h1) as Hc1.
  pose proof (instance_cached s h2) as Hc2.
  destruct (_cached_neighbors (instance s h1)),
    (_cached_neighbors (instance s h2)); (done || lia).
Qed.

Lemma same_generator_same_neighbors_witness :
  returned (__call__ (instance 7 []) 2 3 (Some example_seed) example_seed
              (heap_of 7 [] []))
  = returned (__call__ (instance 7 [[1; 2]]) 2 3 (Some example_seed) example_seed
                (heap_of 7 [[1; 2]] example_requests)).
Proof.
  apply (same_generator_same_neighbors 7 2 3 [] [[1; 2]] [] example_requests
           (Some example_seed) example_seed). lia.
Defined.

(** X5. With one generator, asking for fewer neighbours gives a prefix of
    what asking for more gives; on the cached tier it gives the same
    array. *)
Theorem fewer_neighbors_are_a_prefix (s p n m : nat) (h0 : heap)
    (rs : list request) (seed : option RandomState) (entropy : RandomState) :
  p < s → n ≤ m →
  returned (__call__ (instance s h0) p n seed entropy (heap_of s h0 rs))
  = (λ l, if s <=? CACHE_NEIGHBORS_CATEGORICAL_SIZE then l else take n l)
    <$> returned (__call__ (instance s h0) p m seed entropy (heap_of s h0 rs)).
Proof.
  intros Hp Hnm.
  destruct (instance_facts s h0 rs) as (Hsize & _ & Hintact & _).
  rewrite !call_returns by (done || lia). rewrite Hsize. simpl. f_equal.
  pose proof (instance_cached s h0) as Hc.
  destruct (_cached_neighbors (instance s h0)).
  - by rewrite (proj2 (Nat.leb_le _ _) Hc).
  - rewrite (proj2 (Nat.leb_gt _ _) Hc). rewrite take_take. f_equal. lia.
Qed.

Lemma fewer_neighbors_are_a_prefix_witness :
  returned (__call__ (instance 7 []) 2 3 None example_seed
              (heap_of 7 [] example_requests))
  = (λ l, if 7 <=? CACHE_NEIGHBORS_CATEGORICAL_SIZE then l else take 3 l)
    <$> returned (__call__ (instance 7 []) 2 6 None example_seed
                    (heap_of 7 [] example_requests)).
Proof.
  apply (fewer_neighbors_are_a_prefix 7 2 3 6 [] example_requests None
           example_seed); lia.
Defined.

(** X6. The array a call returns is a buffer of its own: it did not exist
    before the call, and whatever the client writes into it, the caches
    stay as they were. *)
Theorem returned_array_is_fresh (s p n : nat) (h0 : heap) (rs : list request)
    (seed : option RandomState) (entropy : RandomState) :
  p < s →
  let r := __call__ (instance s h0) p n seed entropy (heap_of s h0 rs) in
  ∃ a, outcome r = inr a
       ∧ length (heap_of s h0 rs) ≤ base a
       ∧ ∀ i x, caches_intact (instance s h0) (client_write a i x (heap_after r)).
Proof.
  intros Hp r.
  destruct (instance_facts s h0 rs) as (Hsize & _ & Hintact & Halloc).
  subst r.
  destruct (call_in_range (instance s h0) p n seed entropy (heap_of s h0 rs))
    as (junk & a & -> & Hb & Hs & _); [done|lia|].
  exists a. split; [done|]. split.
  { rewrite Hb, length_app. lia. }
  intros i x. unfold client_write, heap_after. simpl.
  rewrite setitem_fresh by done.
  eapply caches_extend; [|done].
  rewrite <- app_assoc. by apply prefix_app_r.
Qed.

Lemma returned_array_is_fresh_witness :
  let r := __call__ (instance 4 []) 1 2 None example_seed
             (heap_of 4 [] example_requests) in
  ∃ a, outcome r = inr a
       ∧ length (heap_of 4 [] example_requests) ≤ base a
       ∧ ∀ i x, caches_intact (instance 4 []) (client_write a i x (heap_after r)).
Proof.
  apply (returned_array_is_fresh 4 1 2 [] example_requests None example_seed).
  lia.
Defined.

End NeighborhoodMore.

(** ** More on the categorical hyperparameter *)

Module CategoricalMore.
Import Numpy Neighborhood Categorical NeighborhoodFacts F64Facts CategoricalFacts Uses.

Ltac listed := first [apply list_elem_of_here | apply list_elem_of_further; listed].

Ltac computed := vm_compute; reflexivity.

Lemma bind_inr {A B : Type} (m : result A) (f : A → result B) (b : B) :
  m ≫= f = inr b → ∃ a, m = inr a ∧ f a = inr b.
Proof.
  unfold mbind, result_bind. destruct m as [e|a]; simpl; [done|].
  intros H. by exists a.
Qed.

Lemma bind_inl {A B : Type} (m : result A) (f : A → result B) (e : exn) :
  m ≫= f = inl e → m = inl e ∨ ∃ a, m = inr a ∧ f a = inl e.
Proof.
  unfold mbind, result_bind. destruct m as [e'|a]; simpl; intros H.
  - injection H as ->. by left.
  - right. by exists a.
Qed.

Section Constructor.

Context {summation : Summation}.

Lemma init_inr (name : string) (ch : choices_arg) (dv : value) (meta : meta_t)
    (w : weights_arg) (h : heap) (d : CategoricalHyperparameter) :
  (__init__ name ch dv meta w h).1 = inr d →
  ∃ r, resolve name ch dv w = inr r
       ∧ d = mk_CategoricalHyperparameter (r_choices r) (r_weights r) name
               (r_default r) meta (r_size r) (r_probabilities r)
               (r_vector_dist r) (instance (r_size r) h)
       ∧ (__init__ name ch dv meta w h).2 = (__post_init__ (r_size r) h).2.
Proof.
  unfold __init__, instance.
  destruct (resolve name ch dv w) as [e|r]; [done|].
  destruct (__post_init__ (r_size r) h) as [nb h'] eqn:Hpi. simpl.
  intros [= <-]. exists r. by rewrite Hpi.
Qed.

Lemma resolve_vector_dist (name : string) (ch : choices_arg) (dv : value)
    (w : weights_arg) (r : resolved) :
  resolve name ch dv w = inr r →
  r_vector_dist r
  = if is_WeightsNone w then UniformIntegerDistribution (r_size r)
    else WeightedIntegerDiscreteDistribution (r_size r) (r_probabilities r).
Proof.
  unfold resolve. intros H.
  apply bind_inr in H as (? & _ & H). apply bind_inr in H as (l & _ & H).
  cbv zeta in H.
  apply bind_inr in H as (? & _ & H). apply bind_inr in H as (tw & _ & H).
  apply bind_inr in H as (? & _ & H). apply bind_inr in H as (probs & _ & H).
  apply bind_inr in H as (dv' & _ & H).
  injection H as <-. simpl. by destruct (is_WeightsNone w).
Qed.

Lemma check_weights_errors (w : weights_arg) (l : list value) (e : exn) :
  check_weights w l = inl e → e ∈ raised_by_init.
Proof.
  destruct w as [|ws|ws|]; simpl; unfold raise_if; try done.
  - destruct (length ws =? length l); simpl; [|intros [= <-]; listed].
    destruct (existsb _ ws); simpl; [intros [= <-]; listed|].
    destruct (forallb _ ws); simpl; [intros [= <-]; listed|done].
  - intros [= <-]. listed.
  - intros [= <-]. listed.
Qed.

(** The errors of [resolve] are those of its first five checks and of the
    division [1 / size]: the look-ups [choices[0]] and
    [choices[highest_prob_index]], [np.argmax] and the last test of the
    default cannot fail where they stand. *)
Lemma resolve_errors (name : string) (ch : choices_arg) (dv : value)
    (w : weights_arg) (e : exn) :
  resolve name ch dv w = inl e → e ∈ raised_by_init.
Proof.
  unfold resolve. intros H.
  apply bind_inl in H as [H|(? & _ & H)].
  { unfold raise_if in H. destruct (existsb _ _); [|done].
    injection H as <-. listed. }
  apply bind_inl in H as [H|(l & _ & H)].
  { destruct ch; [done|]. injection H as <-. listed. }
  cbv zeta in H.
  apply bind_inl in H as [H|(? & _ & H)].
  { destruct (find _ _); [|done]. injection H as <-. listed. }
  apply bind_inl in H as [H|(tw & Hw & H)].
  { by eapply check_weights_errors. }
  pose proof (check_weights_cases w l) as Hacc. rewrite Hw in Hacc.
  destruct Hacc as [Hacc ->].
  apply bind_inl in H as [H|(? & Hdef & H)].
  { unfold raise_if in H. destruct (_ && _); [|done].
    injection H as <-. listed. }
  unfold raise_if in Hdef.
  destruct (negb (is_None dv) && negb (contains l dv)) eqn:Hd; [done|].
  apply bind_inl in H as [H|(probs & Hprobs & H)].
  { destruct (is_WeightsNone w); [|done].
    apply bind_inl in H as [H|(? & _ & H)]; [|done].
    unfold int_div_1 in H. destruct (decide (length l = 0)); [|done].
    injection H as <-. listed. }
  apply bind_inl in H as [H|(? & _ & H)]; [|done]. exfalso.
  destruct (is_None dv) eqn:Hn; simpl in H.
  - destruct Hacc as [->|(ws & -> & Hlen & _ & y & Hy & _)]; simpl in *.
    + apply bind_inr in Hprobs as (fill & Hfill & _).
      unfold int_div_1 in Hfill. destruct (decide (length l = 0)); [done|].
      unfold tuple_getitem in H. destruct l; done.
    + injection Hprobs as <-.
      destruct (np_argmax_spec ((λ w0, F64.div w0 (np_sum ws)) <$> ws))
        as (i & Hi & Hfm).
      { destruct ws; [by apply elem_of_nil in Hy|done]. }
      rewrite Hi in H. simpl in H. unfold tuple_getitem in H.
      apply first_maximum_lt in Hfm. rewrite length_fmap in Hfm.
      destruct (lookup_lt_is_Some_2 l i) as [c Hc]; [lia|].
      by rewrite Hc in H.
  - simpl in Hd. apply negb_false_iff in Hd. by rewrite Hd in H.
Qed.

(** What the constructor puts in the instance it returns. *)
Lemma init_facts (name0 : string) (ch : choices_arg) (dv : value)
    (meta0 : meta_t) (w : weights_arg) (h : heap)
    (d : CategoricalHyperparameter) :
  (__init__ name0 ch dv meta0 w h).1 = inr d →
  accepted ch dv w
  ∧ ch = ChoicesSeq (choices d)
  ∧ weights d = tupled w
  ∧ size d = length (choices d)
  ∧ probabilities d = probabilities_of w (size d)
  ∧ default_resolved dv w (choices d) (probabilities d) (default_value d)
  ∧ name d = name0 ∧ meta d = meta0
  ∧ neighborhood d = instance (size d) h
  ∧ (__init__ name0 ch dv meta0 w h).2 = (__post_init__ (size d) h).2
  ∧ vector_dist d
    = (if is_WeightsNone w then UniformIntegerDistribution (size d)
       else WeightedIntegerDiscreteDistribution (size d) (probabilities d)).
Proof.
  intros (r & Hr & -> & Hh)%init_inr. simpl.
  pose proof (resolve_cases name0 ch dv w) as Hc. rewrite Hr in Hc.
  destruct Hc as (Hacc & Hch & Hw & Hsize & Hp & Hdef).
  split_and!; try done. by apply (resolve_vector_dist name0 ch dv).
Qed.

Lemma accepted_tupled (ch : choices_arg) (dv : value) (w : weights_arg) :
  accepted ch dv w →
  (is_WeightsNone w = true ∧ tupled w = None)
  ∨ (∃ ws, w = WeightsSeq ws ∧ length ws = length (iterate ch)).
Proof.
  intros (l & -> & _ & _ & _ & [->|(ws & -> & Hlen & _)] & _); [by left|].
  right. by exists ws.
Qed.

(** *** Properties of the constructor *)

(** X7. Every instance the constructor returns has at least one choice, no
    [None] and no duplicate among its choices, [size] equal to their number,
    one probability per choice, a default that is a choice, as many weights
    as choices when it has weights, a neighbourhood of its size, and the
    distribution that goes with its weights; [num_choices] and
    [_probabilities] agree with that. *)
Theorem constructed_invariants (d : CategoricalHyperparameter) :
  constructed d →
  choices d ≠ []
  ∧ (VNone ∉ choices d)
  ∧ NoDup (choices d)
  ∧ size d = length (choices d)
  ∧ length (probabilities d) = size d
  ∧ default_value d ∈ choices d
  ∧ (∀ ws, weights d = Some ws → length ws = size d)
  ∧ Neighborhood.size (neighborhood d) = size d
  ∧ vector_dist d
    = match weights d with
      | None => UniformIntegerDistribution (size d)
      | Some _ => WeightedIntegerDiscreteDistribution (size d) (probabilities d)
      end
  ∧ num_choices d = length (choices d)
  ∧ length (_probabilities d) = num_choices d.
Proof.
  intros Hd.
  destruct (constructed_well_formed d Hd) as (Hne & Hn & Hnd & Hsize & Hlen & Hdef).
  destruct Hd as (name0 & ch & dv & meta0 & w & h & Hd).
  destruct (init_facts _ _ _ _ _ _ _ Hd)
    as (Hacc & Hch & Hw & _ & _ & _ & _ & _ & Hnb & _ & Hvd).
  unfold num_choices, _probabilities.
  split_and!; try done; try congruence.
  - intros ws Hws. rewrite Hw in Hws.
    destruct (accepted_tupled _ _ _ Hacc) as [[_ Ht]|(ws' & -> & Hl)];
      [congruence|].
    injection Hws as <-. rewrite Hl, Hch. simpl. done.
  - rewrite Hnb. apply post_init_size.
  - rewrite Hvd, Hw.
    by destruct (accepted_tupled _ _ _ Hacc) as [[-> ->]|(ws' & -> & _)].
Qed.

(** X8. A default that is given is kept as it is, with or without
    weights: [np.argmax] is not consulted. *)
Theorem explicit_default_is_kept (name0 : string) (ch : choices_arg)
    (dv : value) (meta0 : meta_t) (w : weights_arg) (h : heap)
    (d : CategoricalHyperparameter) :
  (__init__ name0 ch dv meta0 w h).1 = inr d → dv ≠ VNone →
  default_value d = dv.
Proof.
  intros Hd Hdv.
  destruct (init_facts _ _ _ _ _ _ _ Hd) as (_ & _ & _ & _ & _ & Hdef & _).
  unfold default_resolved in Hdef. destruct dv; try done; by destruct Hdef.
Qed.

(** X9. The constructor raises [ZeroDivisionError] exactly when the
    choices are an empty sequence and neither weights nor a default are
    given: the uniform probability [1 / size] is computed before anything
    looks at the size. *)
Theorem no_choice_divides_by_zero (name0 : string) (ch : choices_arg)
    (dv : value) (meta0 : meta_t) (w : weights_arg) (h : heap) :
  (__init__ name0 ch dv meta0 w h).1 = raise ZeroDivisionError
  ↔ ch = ChoicesSeq [] ∧ w = WeightsNone ∧ dv = VNone.
Proof.
  rewrite init_result. split.
  - intros H. pose proof (resolve_cases name0 ch dv w) as Hc.
    destruct (resolve name0 ch dv w) as [e|r]; [|done].
    injection H as ->. done.
  - intros (-> & -> & ->). reflexivity.
Qed.

(** X10. The constructor raises nothing but the errors of its first checks
    and of the division: never [IndexError] from [choices[0]] or
    [choices[highest_prob_index]], never the error of [np.argmax] on an
    empty array, and never the [ValueError] of its last test of the default
    (lines 229 to 232), which an earlier test has already settled. *)
Theorem init_raises_only (name0 : string) (ch : choices_arg) (dv : value)
    (meta0 : meta_t) (w : weights_arg) (h : heap) (e : exn) :
  (__init__ name0 ch dv meta0 w h).1 = inl e →
  e ∈ raised_by_init
  ∧ e ≠ IndexError
  ∧ e ≠ ValueError "Illegal default value"
  ∧ e ≠ ValueError "attempt to get argmax of an empty sequence".
Proof.
  rewrite init_result. intros H.
  destruct (resolve name0 ch dv w) as [e'|r] eqn:Hr; [|done].
  injection H as ->. apply resolve_errors in Hr.
  split; [done|].
  unfold raised_by_init in Hr. rewrite !elem_of_cons, elem_of_nil in Hr.
  split_and!; intros ->; repeat destruct Hr as [Hr|Hr]; done.
Qed.

(** X11. The constructor writes no array that existed: the heap before it
    is a prefix of the heap after it.  When it raises, the heap is
    unchanged; when it returns, the caches of the neighbourhood it built
    hold the ascending sequences. *)
Theorem init_heap (name0 : string) (ch : choices_arg) (dv : value)
    (meta0 : meta_t) (w : weights_arg) (h : heap) :
  let r := __init__ name0 ch dv meta0 w h in
  h `prefix_of` r.2
  ∧ (∀ e, r.1 = inl e → r.2 = h)
  ∧ (∀ d, r.1 = inr d → caches_intact (neighborhood d) r.2).
Proof.
  intros r. subst r. split; [apply init_prefix|]. split.
  - unfold __init__. destruct (resolve name0 ch dv w) as [e'|r]; [done|].
    by destruct (__post_init__ (r_size r) h).
  - intros d Hd.
    destruct (init_facts _ _ _ _ _ _ _ Hd)
      as (_ & _ & _ & _ & _ & _ & _ & _ & Hnb & Hh & _).
    rewrite Hnb, Hh. apply post_init_caches.
Qed.

(** *** The constructor and the generator together *)

(** X12. For a domain the constructor returned, after any calls of its
    neighbourhood: a call with the index [p] of a choice returns indices
    without repeats, and each of them is the index of a choice that differs
    from the choice at [p]. *)
Theorem neighbors_are_other_choices (name0 : string) (ch : choices_arg)
    (dv : value) (meta0 : meta_t) (w : weights_arg) (h : heap)
    (d : CategoricalHyperparameter) (rs : list request) (p n : nat)
    (seed : option RandomState) (entropy : RandomState) :
  (__init__ name0 ch dv meta0 w h).1 = inr d → p < size d →
  let h' := serve_all (neighborhood d) rs (__init__ name0 ch dv meta0 w h).2 in
  ∃ l, returned (__call__ (neighborhood d) p n seed entropy h') = Some l
       ∧ NoDup l
       ∧ ∀ k, k ∈ l →
           ∃ v, choices d !! k = Some v ∧ choices d !! p ≠ Some v.
Proof.
  intros Hd Hp h'.
  assert (Hc : constructed d) by (unfold constructed; eauto 10).
  destruct (constructed_well_formed d Hc) as (_ & _ & Hnd & Hsize & _).
  destruct (init_facts _ _ _ _ _ _ _ Hd)
    as (_ & _ & _ & _ & _ & _ & _ & _ & Hnb & Hh & _).
  subst h'. rewrite Hnb, Hh. fold (heap_of (size d) h rs).
  destruct (NeighborhoodMore.instance_facts (size d) h rs)
    as (Hsz & _ & Hintact & _).
  rewrite NeighborhoodMore.call_returns by (done || lia). rewrite Hsz.
  set (full := shuffled (default entropy seed) (others (size d) p)).
  assert (Hfull : NoDup full ∧ ∀ k, k ∈ full → k < size d ∧ k ≠ p).
  { unfold full. split.
    - rewrite shuffled_perm. apply NoDup_others.
    - intros k. rewrite shuffled_perm. by apply elem_of_others. }
  destruct Hfull as [Hndf Hin].
  assert (Hdecode : ∀ k, k ∈ full →
            ∃ v, choices d !! k = Some v ∧ choices d !! p ≠ Some v).
  { intros k [Hk Hkp]%Hin.
    destruct (lookup_lt_is_Some_2 (choices d) k) as [v Hv]; [lia|].
    exists v. split; [done|]. intros Hpv.
    apply Hkp. apply (NoDup_lookup (choices d) k p v Hnd Hv Hpv). }
  destruct (_cached_neighbors (instance (size d) h)).
  - by exists full.
  - exists (take n full). split; [done|]. split.
    + apply (sublist_NoDup _ full Hndf), sublist_take.
    + intros k Hk. apply Hdecode. by eapply subseteq_take.
Qed.

(** X13. [_categorical_neighborhood_size] counts the neighbours the
    generator has for a value: for the choice at index [p] it is the length
    of the sequence of the other indices, [size - 1]; for [None] and for a
    value that is not a choice it is [size]. *)
Theorem neighborhood_size_counts_neighbors (d : CategoricalHyperparameter) :
  constructed d →
  (∀ p v, choices d !! p = Some v →
     _categorical_neighborhood_size d v = length (others (size d) p)
     ∧ _categorical_neighborhood_size d v = size d - 1)
  ∧ (∀ v, v ∉ choices d → _categorical_neighborhood_size d v = size d)
  ∧ _categorical_neighborhood_size d VNone = size d.
Proof.
  intros (_ & Hn & _ & Hsize & _)%constructed_well_formed.
  unfold _categorical_neighborhood_size. split_and!.
  - intros p v Hv.
    assert (Hin : v ∈ choices d) by by eapply list_elem_of_lookup_2.
    assert (is_None v = false) as -> by (destruct v; try done).
    rewrite (proj2 (contains_elem_of _ _) Hin). simpl.
    rewrite length_others; [done|]. apply lookup_lt_Some in Hv. lia.
  - intros v Hv. destruct (is_None v); [done|]. simpl.
    destruct (contains (choices d) v) eqn:Hc; [|done].
    by apply contains_elem_of in Hc.
  - done.
Qed.

(** *** Properties of the equality *)

Lemma eq_loop_other (pairs : list (value * f64))
    (o1 o2 : CategoricalHyperparameter) :
  choices o1 = choices o2 → probabilities o1 = probabilities o2 →
  eq_loop pairs o1 = eq_loop pairs o2.
Proof.
  intros Hc Hp. induction pairs as [|[c p] rest IH]; simpl; [done|].
  by rewrite Hc, Hp, IH.
Qed.

(** X14. Equality looks at neither [meta] nor the neighbourhood: of two
    domains built from the same name, choices, default and weights, with
    any [meta] and in any heaps, comparing the first with the second gives
    what comparing the first with itself gives; they compare equal exactly
    when no probability is NaN. *)
Theorem eq_ignores_meta (name0 : string) (ch : choices_arg) (dv : value)
    (w : weights_arg) (meta1 meta2 : meta_t) (h1 h2 : heap)
    (a b : CategoricalHyperparameter) :
  (__init__ name0 ch dv meta1 w h1).1 = inr a →
  (__init__ name0 ch dv meta2 w h2).1 = inr b →
  __eq__ a (Instance_of_class b) = __eq__ a (Instance_of_class a)
  ∧ (__eq__ a (Instance_of_class b) = inr true ↔ no_nan a).
Proof.
  intros Ha Hb.
  assert (Hca : constructed a) by (unfold constructed; eauto 10).
  assert (Hsame : __eq__ a (Instance_of_class b) = __eq__ a (Instance_of_class a)).
  { rewrite init_result in Ha, Hb.
    destruct (resolve name0 ch dv w) as [e|r]; [done|].
    injection Ha as <-. injection Hb as <-. unfold __eq__. simpl.
    destruct (_ || _ || _); [done|]. by apply eq_loop_other. }
  split; [done|]. rewrite Hsame. by apply eq_reflexive_iff.
Qed.

Lemma choices_match_perm (a b : CategoricalHyperparameter) :
  well_formed a → well_formed b →
  length (choices a) = length (choices b) →
  choices_match a b → choices a ≡ₚ choices b.
Proof.
  intros (_ & _ & Hnda & _ & Hla & _) _ Hlen Hab.
  apply submseteq_length_Permutation; [|lia].
  apply NoDup_submseteq; [done|].
  intros c [i Hi]%list_elem_of_lookup_1.
  destruct (lookup_lt_is_Some_2 (probabilities a) i) as [q Hq].
  { apply lookup_lt_Some in Hi. lia. }
  destruct (Hab i c q Hi Hq) as (j & q' & Hj & _).
  by eapply list_elem_of_lookup_2.
Qed.

(** X15. Domains that compare equal have the same choices up to their
    order, hence the same size, and the same name and default. *)
Theorem equal_domains_have_the_same_choices (a b : CategoricalHyperparameter) :
  constructed a → constructed b →
  __eq__ a (Instance_of_class b) = inr true →
  choices a ≡ₚ choices b
  ∧ size a = size b
  ∧ name a = name b
  ∧ default_value a = default_value b.
Proof.
  intros Ha Hb Hab.
  apply (eq_true a b Hb) in Hab as (Hname & Hdef & Hlen & Hmatch).
  pose proof (constructed_well_formed a Ha) as Hwa.
  pose proof (constructed_well_formed b Hb) as Hwb.
  split_and!; try done.
  - by apply choices_match_perm.
  - destruct Hwa as (_ & _ & _ & -> & _), Hwb as (_ & _ & _ & -> & _). done.
Qed.

(** *** [to_uniform] and the equality *)

Lemma to_uniform_facts (d u : CategoricalHyperparameter) (h : heap) :
  constructed d → (to_uniform d h).1 = inr u →
  constructed u
  ∧ choices u = choices d ∧ name u = name d ∧ meta u = meta d
  ∧ default_value u = default_value d ∧ size u = size d
  ∧ weights u = None
  ∧ probabilities u = np_full (size d) (F64.div F64.one (F64.of_nat (size d)))
  ∧ vector_dist u = UniformIntegerDistribution (size d).
Proof.
  intros Hd Hu.
  destruct (constructed_well_formed d Hd) as (_ & Hn & _ & Hsize & _ & Hdef).
  unfold to_uniform in Hu.
  assert (Hcu : constructed u).
  { exists (name d), (ChoicesSeq (choices d)), (default_value d), (meta d),
      WeightsNone, h. exact Hu. }
  destruct (init_facts _ _ _ _ _ _ _ Hu)
    as (_ & [= Hch] & Hw & Hsz & Hp & Hdr & Hname & Hmeta & _ & _ & Hvd).
  assert (Hs : size u = size d) by congruence.
  unfold default_resolved in Hdr.
  assert (is_None (default_value d) = false) as Hnn.
  { destruct (default_value d) eqn:Hv; try done. }
  rewrite Hnn in Hdr. destruct Hdr as [Hdv _].
  simpl in Hp, Hvd. rewrite Hs in Hp, Hvd. by split_and!.
Qed.

Lemma to_uniform_eq_iff (d u : CategoricalHyperparameter) (h : heap) :
  constructed d → (to_uniform d h).1 = inr u →
  __eq__ u (Instance_of_class d) = inr true
  ↔ ∀ q, q ∈ probabilities d →
      F64.eqb q (F64.div F64.one (F64.of_nat (size d))) = true.
Proof.
  intros Hd Hu.
  destruct (to_uniform_facts d u h Hd Hu)
    as (Hcu & Hch & Hname & _ & Hdef & Hs & _ & Hp & _).
  destruct (constructed_well_formed d Hd) as (_ & _ & Hnd & Hsize & Hlen & _).
  rewrite (eq_true u d Hd).
  assert (Hu_at : ∀ i c, choices d !! i = Some c →
            probabilities u !! i
            = Some (F64.div F64.one (F64.of_nat (size d)))).
  { intros i c Hi. rewrite Hp. apply lookup_replicate_2.
    apply lookup_lt_Some in Hi. lia. }
  split.
  - intros (_ & _ & _ & Hmatch).
    intros q [j Hq]%list_elem_of_lookup_1.
    destruct (lookup_lt_is_Some_2 (choices d) j) as [c Hc].
    { apply lookup_lt_Some in Hq. lia. }
    destruct (Hmatch j c _ ltac:(by rewrite Hch) (Hu_at j c Hc))
      as (j' & q' & Hj' & Hq' & Heq).
    assert (j' = j) as -> by apply (NoDup_lookup (choices d) j' j c Hnd Hj' Hc).
    rewrite Hq in Hq'. injection Hq' as <-. by rewrite eqb_sym.
  - intros Hall. split_and!; try congruence.
    intros i c q. rewrite Hch. intros Hi Hq.
    rewrite (Hu_at i c Hi) in Hq. injection Hq as <-.
    destruct (lookup_lt_is_Some_2 (probabilities d) i) as [q Hq].
    { apply lookup_lt_Some in Hi. lia. }
    exists i, q. split_and!; try done. rewrite eqb_sym. apply Hall.
    by eapply list_elem_of_lookup_2.
Qed.

(** X16. [d.to_uniform() == d] holds exactly when every probability of
    [d] is [1 / size]. *)
Theorem to_uniform_is_equal_iff_uniform (d u : CategoricalHyperparameter)
    (h : heap) :
  constructed d → (to_uniform d h).1 = inr u →
  __eq__ u (Instance_of_class d) = inr true
  ↔ ∀ q, q ∈ probabilities d →
      F64.eqb q (F64.div F64.one (F64.of_nat (size d))) = true.
Proof. apply to_uniform_eq_iff. Qed.

(** X17. A domain without weights is a fixed point of [to_uniform]: the
    result has the fields of [d], the neighbourhood apart, which is built
    anew, and the two compare equal both ways.  So [to_uniform] is
    idempotent. *)
Theorem to_uniform_of_uniform (d u : CategoricalHyperparameter) (h : heap) :
  constructed d → weights d = None → (to_uniform d h).1 = inr u →
  choices u = choices d ∧ weights u = weights d ∧ name u = name d
  ∧ default_value u = default_value d ∧ meta u = meta d ∧ size u = size d
  ∧ probabilities u = probabilities d ∧ vector_dist u = vector_dist d
  ∧ __eq__ u (Instance_of_class d) = inr true
  ∧ __eq__ d (Instance_of_class u) = inr true.
Proof.
  intros Hd Hw Hu.
  destruct (to_uniform_facts d u h Hd Hu)
    as (Hcu & Hch & Hname & Hmeta & Hdef & Hs & Hwu & Hp & Hvd).
  assert (Hd' := Hd).
  destruct Hd' as (name0 & ch & dv & meta0 & w & h0 & Hinit).
  destruct (init_facts _ _ _ _ _ _ _ Hinit)
    as (Hacc & _ & Htw & _ & Hpd & _ & _ & _ & _ & _ & Hvdd).
  assert (w = WeightsNone) as ->.
  { destruct (accepted_tupled _ _ _ Hacc) as [[Hwn _]|(ws & -> & _)].
    - by destruct w.
    - rewrite Hw in Htw. done. }
  simpl in Hpd, Hvdd.
  assert (Heq : __eq__ u (Instance_of_class d) = inr true).
  { apply (to_uniform_eq_iff d u h Hd Hu). intros q Hq.
    rewrite Hpd in Hq. unfold np_full in Hq.
    apply elem_of_replicate in Hq as [-> _].
    by rewrite eqb_refl, uniform_not_nan. }
  split_and!; try congruence. by apply eq_is_symmetric.
Qed.

(** *** [__str__] *)





End Constructor.

(** *** The examples *)

Section Examples.

#[local] Existing Instance sequential_sum.

Lemma constructed_invariants_witness :
  ∃ d, example_weighted = inr d
    ∧ choices d ≠ []
    ∧ (VNone ∉ choices d)
    ∧ NoDup (choices d)
    ∧ size d = length (choices d)
    ∧ length (probabilities d) = size d
    ∧ default_value d ∈ choices d
    ∧ (∀ ws, weights d = Some ws → length ws = size d)
    ∧ Neighborhood.size (neighborhood d) = size d
    ∧ vector_dist d
      = match weights d with
        | None => UniformIntegerDistribution (size d)
        | Some _ => WeightedIntegerDiscreteDistribution (size d) (probabilities d)
        end
    ∧ num_choices d = length (choices d)
    ∧ length (_probabilities d) = num_choices d.
Proof.
  eexists. split; [computed|].
  apply constructed_invariants. apply example_weighted_constructed. computed.
Defined.

Lemma explicit_default_is_kept_witness :
  ∃ d, (__init__ "a" example_abc (VStr "a") None
          (WeightsSeq [F64.of_Z 1; F64.of_Z 3; F64.of_Z 3]) []).1 = inr d
    ∧ default_value d = VStr "a".
Proof.
  eexists. split; [computed|].
  apply (explicit_default_is_kept "a" example_abc (VStr "a") None
           (WeightsSeq [F64.of_Z 1; F64.of_Z 3; F64.of_Z 3]) []);
    [computed|done].
Defined.

Lemma init_raises_only_witness :
  let e := ValueError "Negative weights are not allowed." in
  e ∈ raised_by_init
  ∧ e ≠ IndexError
  ∧ e ≠ ValueError "Illegal default value"
  ∧ e ≠ ValueError "attempt to get argmax of an empty sequence".
Proof.
  apply (init_raises_only "a" example_abc VNone None
           (WeightsSeq [F64.of_Z 1; F64.of_Z (-1); F64.of_Z 3]) []).
  computed.
Defined.

Lemma neighbors_are_other_choices_witness :
  ∃ d, (__init__ "b" example_abc VNone None WeightsNone []).1 = inr d ∧
  ∃ l, returned (__call__ (neighborhood d) 1 2 None example_seed
                   (serve_all (neighborhood d) example_requests
                      (__init__ "b" example_abc VNone None WeightsNone []).2))
       = Some l
       ∧ NoDup l
       ∧ ∀ k, k ∈ l →
           ∃ v, choices d !! k = Some v ∧ choices d !! 1 ≠ Some v.
Proof.
  eexists. split; [computed|].
  apply (neighbors_are_other_choices "b" example_abc VNone None WeightsNone []);
    [computed|simpl; lia].
Defined.

Lemma neighborhood_size_counts_neighbors_witness :
  ∃ d, example_weighted = inr d
  ∧ (∀ p v, choices d !! p = Some v →
       _categorical_neighborhood_size d v = length (others (size d) p)
       ∧ _categorical_neighborhood_size d v = size d - 1)
  ∧ (∀ v, v ∉ choices d → _categorical_neighborhood_size d v = size d)
  ∧ _categorical_neighborhood_size d VNone = size d.
Proof.
  eexists. split; [computed|].
  apply neighborhood_size_counts_neighbors.
  apply example_weighted_constructed. computed.
Defined.

Lemma eq_ignores_meta_witness :
  ∃ a b,
    (__init__ "b" example_abc VNone None WeightsNone []).1 = inr a
    ∧ (__init__ "b" example_abc VNone (Some [(VStr "k", VInt 1)]) WeightsNone
         [[4; 2]]).1 = inr b
    ∧ __eq__ a (Instance_of_class b) = inr true
    ∧ __eq__ a (Instance_of_class b) = __eq__ a (Instance_of_class a)
    ∧ (__eq__ a (Instance_of_class b) = inr true ↔ no_nan a).
Proof.
  eexists _, _. split; [computed|]. split; [computed|].
  split; [computed|].
  apply (eq_ignores_meta "b" example_abc VNone WeightsNone None
           (Some [(VStr "k", VInt 1)]) [] [[4; 2]]); computed.
Defined.

Lemma equal_domains_have_the_same_choices_witness :
  ∃ a b, example_ab = inr a ∧ example_ba = inr b
    ∧ choices a ≡ₚ choices b
    ∧ size a = size b
    ∧ name a = name b
    ∧ default_value a = default_value b.
Proof.
  eexists _, _. split; [computed|]. split; [computed|].
  apply equal_domains_have_the_same_choices.
  - apply example_ab_constructed. computed.
  - apply example_ba_constructed. computed.
  - computed.
Defined.

Lemma weighted_d_constructed : constructed weighted_d.
Proof.
  exists "a", (ChoicesSeq [VStr "a"; VStr "b"]), VNone, None,
    (WeightsSeq [F64.ratio 3 10; F64.ratio 7 10]), [].
  vm_compute. reflexivity.
Qed.

Lemma uniform_d_constructed : constructed uniform_d.
Proof.
  exists "b", example_abc, VNone, None, WeightsNone, [].
  vm_compute. reflexivity.
Qed.

Lemma to_uniform_is_equal_iff_uniform_witness :
  __eq__ weighted_u (Instance_of_class weighted_d) = inr false
  ∧ (__eq__ weighted_u (Instance_of_class weighted_d) = inr true
     ↔ ∀ q, q ∈ probabilities weighted_d →
         F64.eqb q (F64.div F64.one (F64.of_nat (size weighted_d))) = true).
Proof.
  split; [vm_compute; reflexivity|].
  apply (to_uniform_is_equal_iff_uniform weighted_d weighted_u []).
  - apply weighted_d_constructed.
  - vm_compute. reflexivity.
Defined.

Lemma to_uniform_of_uniform_witness :
  choices uniform_u = choices uniform_d
  ∧ weights uniform_u = weights uniform_d
  ∧ name uniform_u = name uniform_d
  ∧ default_value uniform_u = default_value uniform_d
  ∧ meta uniform_u = meta uniform_d
  ∧ size uniform_u = size uniform_d
  ∧ probabilities uniform_u = probabilities uniform_d
  ∧ vector_dist uniform_u = vector_dist uniform_d
  ∧ __eq__ uniform_u (Instance_of_class uniform_d) = inr true
  ∧ __eq__ uniform_d (Instance_of_class uniform_u) = inr true.
Proof.
  apply (to_uniform_of_uniform uniform_d uniform_u [[0]]).
  - apply uniform_d_constructed.
  - reflexivity.
  - vm_compute. reflexivity.
Defined.

End Examples.

End CategoricalMore.
